(** * ArgParser: a shallow embedding of the command-line parser

    The development follows [src/ArgParser/ArgParser.cpp] and
    [include/ArgParser/ArgParser.hpp].  Strings are [string], the parsed
    option table ([std::map<std::string_view, std::string_view>]) is a
    [gmap string string], vectors are lists, and a call that can throw
    returns a [result]. *)

From Stdlib Require Import ZArith Ascii String List Lia.
From stdpp Require Import base option list strings pretty gmap.

Local Open Scope string_scope.
Local Open Scope Z_scope.
Local Open Scope list_scope.

(** ** C strings *)

Module CStr.

(** The terminator ['\0'] of a C string. *)
Definition NUL : ascii := Ascii.zero.
Definition dash : ascii := "-"%char.
Definition equals : ascii := "="%char.

(** A [string] stands for the characters of a NUL-terminated [char*] in
    front of its terminator: it is a C string when it holds no NUL. *)
Fixpoint cstring (s : string) : bool :=
  match s with
  | EmptyString => true
  | String c s' => negb (Ascii.eqb c NUL) && cstring s'
  end.

(** [s[n]] for [n <= strlen s]: reading at the length gives the
    terminator. *)
Definition char_at (s : string) (n : nat) : ascii :=
  match String.get n s with
  | Some c => c
  | None => NUL
  end.

(** [s + n] for [n <= strlen s]. *)
Fixpoint advance (n : nat) (s : string) : string :=
  match n, s with
  | O, _ => s
  | S n', String _ s' => advance n' s'
  | S _, EmptyString => EmptyString
  end.

(** [strchr(s, c)] together with the two pieces the parser takes from it:
    [Some (before, after)] is [std::string_view(s, end)] and [end + 1] of a
    non-null [end]; [None] is the null pointer. *)
Fixpoint strchr (s : string) (c : ascii) : option (string * string) :=
  match s with
  | EmptyString => None
  | String x s' =>
      if Ascii.eqb x c then Some (EmptyString, s')
      else match strchr s' c with
           | Some (before, after) => Some (String x before, after)
           | None => None
           end
  end.

(** [c] occurs in [s]. *)
Fixpoint occurs (c : ascii) (s : string) : bool :=
  match s with
  | EmptyString => false
  | String x s' => Ascii.eqb x c || occurs c s'
  end.

(** [std::format("{}", c)] of one character. *)
Definition of_char (c : ascii) : string := String c EmptyString.

End CStr.
Import CStr.

(** ** Outcomes *)

(** The two exception classes the code throws, with their [what()], and the
    [std::out_of_range] of [std::map::at]. *)
Inductive exn : Type :=
  | runtime_error (what : string)
  | ArgParserException (what : string)
  | out_of_range.

(** The outcome of a call: a value, a thrown exception, or behaviour the
    language leaves undefined (the code dereferences a null [argv]). *)
Inductive result (A : Type) : Type :=
  | Return (a : A)
  | Throw (e : exn)
  | Undefined.
Arguments Return {A} a.
Arguments Throw {A} e.
Arguments Undefined {A}.

Definition bind {A B : Type} (r : result A) (k : A -> result B) : result B :=
  match r with
  | Return a => k a
  | Throw e => Throw e
  | Undefined => Undefined
  end.

(** The messages of the [std::format] calls; the kinds are the names the
    specification gives to them. *)
Module Msg.

Definition ConfigurationError (short_name : ascii) (first second : string) : exn :=
  runtime_error
    ("found short option duplicates for -" +:+ of_char short_name
       +:+ " (--" +:+ first +:+ " and --" +:+ second +:+ ")").

Definition UnrecognizedOption (full_name : string) : exn :=
  ArgParserException ("unrecognized option '--" +:+ full_name +:+ "'").

Definition UnrecognizedShortOption (short_name : ascii) : exn :=
  ArgParserException ("unrecognized option '-" +:+ of_char short_name +:+ "'").

Definition MissingOptionValue (full_name : string) : exn :=
  ArgParserException ("expected value for option '--" +:+ full_name +:+ "'").

Definition MissingShortOptionValue (short_name : ascii) : exn :=
  ArgParserException ("expected value for option '-" +:+ of_char short_name +:+ "'").

Definition MissingRequiredArgument (position : Z) : exn :=
  ArgParserException ("missing required argument at position " +:+ pretty position).

Definition MissingRequiredOption (name : string) : exn :=
  ArgParserException ("missing required option --" +:+ name).

Definition InvalidNumericValue (raw : string) : exn :=
  ArgParserException (raw +:+ " is not a valid numeric value").

End Msg.

(** ** Option definitions and the parser object *)

Record OptionDef : Type := mkOptionDef {
  m_full_name : string;
  m_short_name : ascii;
  m_description : string;
  m_expect_value : bool
}.

(** The second constructor of [OptionDef]: the short name is
    [full_name[0]] (the terminator stands in for the out-of-range read of
    an empty name). *)
Definition OptionDef_of_name (full_name description : string) (expect_value : bool)
  : OptionDef :=
  mkOptionDef full_name (char_at full_name 0) description expect_value.

Record ArgParser : Type := mkArgParser {
  m_executable_path : string;
  m_available_options : list OptionDef;
  m_options : gmap string string;
  m_arguments : list string;
  m_remaining_arguments : list string
}.

(** [std::find_if] over the definitions, by full name and by short name. *)
Definition find_full_name (options : list OptionDef) (full_name : string)
  : option OptionDef :=
  List.find (fun option => String.eqb (m_full_name option) full_name) options.

Definition find_short_name (options : list OptionDef) (short_name : ascii)
  : option OptionDef :=
  List.find (fun option => Ascii.eqb (m_short_name option) short_name) options.

(** The loop of the constructor: for each [current], search the definitions
    after it for one with the same short name. *)
Fixpoint find_duplicate (options : list OptionDef) : option exn :=
  match options with
  | [] => None
  | current :: rest =>
      match find_short_name rest (m_short_name current) with
      | Some duplicate =>
          Some (Msg.ConfigurationError (m_short_name current)
                  (m_full_name current) (m_full_name duplicate))
      | None => find_duplicate rest
      end
  end.

(** [ArgParser::ArgParser(options)]. *)
Definition ArgParser_new (options : list OptionDef) : result ArgParser :=
  match find_duplicate options with
  | Some e => Throw e
  | None => Return (mkArgParser EmptyString options ∅ [] [])
  end.

(** ** [ArgParser::parse] *)

(** [m_options[key] = value]. *)
Definition set_option (self : ArgParser) (key value : string) : ArgParser :=
  mkArgParser (m_executable_path self) (m_available_options self)
    (<[key := value]> (m_options self)) (m_arguments self)
    (m_remaining_arguments self).

(** [m_arguments.push_back(token)]. *)
Definition push_argument (self : ArgParser) (token : string) : ArgParser :=
  mkArgParser (m_executable_path self) (m_available_options self)
    (m_options self) (m_arguments self ++ [token]) (m_remaining_arguments self).

(** [m_remaining_arguments.insert(begin(), argv + i + 1, argv + argc)]. *)
Definition insert_remaining (self : ArgParser) (tokens : list string) : ArgParser :=
  mkArgParser (m_executable_path self) (m_available_options self)
    (m_options self) (m_arguments self) (tokens ++ m_remaining_arguments self).

(** The three [clear()] calls and the assignment of the executable path. *)
Definition reset (self : ArgParser) (executable_path : string) : ArgParser :=
  mkArgParser executable_path (m_available_options self) ∅ [] [].

(** What one turn of the loop body does with the loop: go on to the next
    turn (after [++i] when the next token was taken as a value), leave the
    loop ([break]), or throw. *)
Inductive step : Type :=
  | Continue (took_next : bool) (self : ArgParser)
  | Break (self : ArgParser)
  | Raise (e : exn).

(** [i + 1 < argc && *argv[i+1] != '-'], on the tokens after [argv[i]]. *)
Definition next_is_value (rest : list string) : option string :=
  match rest with
  | next :: _ => if Ascii.eqb (char_at next 0) dash then None else Some next
  | [] => None
  end.

(** The body of the loop at [argv[i] = token], with [rest] the tokens
    [argv[i+1 .. argc)]. *)
Definition parse_body (accept_remaining_arguments : bool) (self : ArgParser)
    (token : string) (rest : list string) : step :=
  if Ascii.eqb (char_at token 0) dash then
    if Ascii.eqb (char_at token 1) dash then
      if Ascii.eqb (char_at token 2) NUL && accept_remaining_arguments then
        Break (insert_remaining self rest)
      else
        let begin := advance 2 token in
        let end_ := strchr begin equals in
        let full_name := match end_ with Some (name, _) => name | None => begin end in
        match find_full_name (m_available_options self) full_name with
        | None => Raise (Msg.UnrecognizedOption full_name)
        | Some option =>
            if m_expect_value option then
              match end_ with
              | Some (_, value) =>
                  Continue false (set_option self (m_full_name option) value)
              | None =>
                  match next_is_value rest with
                  | Some value =>
                      Continue true (set_option self (m_full_name option) value)
                  | None => Raise (Msg.MissingOptionValue full_name)
                  end
              end
            else Continue false (set_option self (m_full_name option) EmptyString)
        end
    else
      let short_name := char_at token 1 in
      match find_short_name (m_available_options self) short_name with
      | None => Raise (Msg.UnrecognizedShortOption short_name)
      | Some option =>
          if m_expect_value option then
            match next_is_value rest with
            | Some value =>
                Continue true (set_option self (m_full_name option) value)
            | None => Raise (Msg.MissingShortOptionValue short_name)
            end
          else Continue false (set_option self (m_full_name option) EmptyString)
      end
  else Continue false (push_argument self token).

(** [for (size_t i = 1; i < argc; i++)], on the tokens [argv[i .. argc)]
    still in front of the loop. *)
Fixpoint parse_loop (accept_remaining_arguments : bool) (self : ArgParser)
    (tokens : list string) {struct tokens} : result ArgParser :=
  match tokens with
  | [] => Return self
  | token :: rest =>
      match parse_body accept_remaining_arguments self token rest with
      | Raise e => Throw e
      | Break self' => Return self'
      | Continue false self' => parse_loop accept_remaining_arguments self' rest
      | Continue true self' =>
          match rest with
          | _ :: rest' => parse_loop accept_remaining_arguments self' rest'
          | [] => Return self'
          end
      end
  end.

(** [ArgParser::parse(argc, argv, accept_remaining_arguments)] with
    [argc = length argv]. *)
Definition parse (self : ArgParser) (argv : list string)
    (accept_remaining_arguments : bool) : result ArgParser :=
  match argv with
  | [] => Undefined
  | executable_path :: tokens =>
      parse_loop accept_remaining_arguments (reset self executable_path) tokens
  end.

(** ** [std::from_chars] for integers, base 10

    The conversion is the standard library's; it is rendered from the
    C++ standard, [charconv.from.chars]: the pattern is a run of decimal
    digits, with a minus sign in front only when the type of [value] is
    signed; no plus sign, no leading white space.  Without a match [value]
    is untouched and [ec] is [invalid_argument]; with a match whose number
    the type cannot represent [value] is untouched and [ec] is
    [result_out_of_range]. *)

Record IntegerType : Type := mkIntegerType {
  is_signed : bool;
  width : nat
}.

Definition min_value (T : IntegerType) : Z :=
  if is_signed T then - 2 ^ (Z.of_nat (width T) - 1) else 0.

Definition max_value (T : IntegerType) : Z :=
  if is_signed T then 2 ^ (Z.of_nat (width T) - 1) - 1
  else 2 ^ Z.of_nat (width T) - 1.

Definition representable (T : IntegerType) (z : Z) : bool :=
  (min_value T <=? z) && (z <=? max_value T).

Definition int32_t : IntegerType := mkIntegerType true 32.
Definition uint32_t : IntegerType := mkIntegerType false 32.

Inductive errc : Type := errc_none | invalid_argument | result_out_of_range.

Definition errc_eqb (a b : errc) : bool :=
  match a, b with
  | errc_none, errc_none => true
  | invalid_argument, invalid_argument => true
  | result_out_of_range, result_out_of_range => true
  | _, _ => false
  end.

Record from_chars_result : Type := mk_from_chars_result {
  ptr : nat;
  ec : errc
}.

Definition is_digit (c : ascii) : bool :=
  (48 <=? nat_of_ascii c)%nat && (nat_of_ascii c <=? 57)%nat.

Definition digit_value (c : ascii) : Z := Z.of_nat (nat_of_ascii c) - 48.

(** The longest run of digits in front of [s]: its number in base 10 on
    top of [acc], and how many characters it has on top of [n]. *)
Fixpoint read_digits (s : string) (acc : Z) (n : nat) : Z * nat :=
  match s with
  | String c s' =>
      if is_digit c then read_digits s' (10 * acc + digit_value c) (S n)
      else (acc, n)
  | EmptyString => (acc, n)
  end.

(** [std::from_chars(first, last, value)] on the characters [s] of
    [first .. last): the new [value] and the result. *)
Definition from_chars (T : IntegerType) (s : string) (value : Z)
  : Z * from_chars_result :=
  let negative := is_signed T && Ascii.eqb (char_at s 0) dash in
  let '(magnitude, n) := read_digits (if negative then advance 1 s else s) 0 0 in
  if (n =? 0)%nat then (value, mk_from_chars_result 0 invalid_argument)
  else
    let parsed := if negative then - magnitude else magnitude in
    let stop := ((if negative then 1 else 0) + n)%nat in
    if representable T parsed then (parsed, mk_from_chars_result stop errc_none)
    else (value, mk_from_chars_result stop result_out_of_range).

(** ** [ArgParser::ValueProxy] *)

(** The index of a proxy: a string for an option; for an argument an
    integral [IndexT], given by the type and the number it holds. *)
Inductive IndexT : Type :=
  | ByName (name : string)
  | ByPosition (index_type : IntegerType) (index : Z).

(** The type in which [m_index + 1] is computed: [int] (32 bits) for an
    index type below it, the index type itself otherwise. *)
Definition promoted (index_type : IntegerType) : IntegerType :=
  if (width index_type <? 32)%nat then int32_t else index_type.

(** [m_index + 1]: it wraps around in an unsigned type; in a signed type
    the overflow has no defined behaviour ([None]). *)
Definition position_number (index_type : IntegerType) (index : Z) : option Z :=
  if is_signed (promoted index_type) then
    if index + 1 <=? max_value (promoted index_type) then Some (index + 1) else None
  else Some ((index + 1) mod 2 ^ Z.of_nat (width (promoted index_type))).

Record ValueProxy : Type := mkValueProxy {
  m_parser : ArgParser;
  m_index : IndexT
}.

(** [ArgParser::get(index)] and [operator[]]. *)
Definition get (self : ArgParser) (index : IndexT) : ValueProxy :=
  mkValueProxy self index.

(** [exists()].  The comparison [m_index < m_arguments.size()] is made in
    [size_t]: a negative index converts to a number above every size. *)
Definition exists_ (p : ValueProxy) : bool :=
  match m_index p with
  | ByPosition _ index =>
      (0 <=? index) && (index <? Z.of_nat (length (m_arguments (m_parser p))))
  | ByName name => bool_decide (is_Some (m_options (m_parser p) !! name))
  end.

(** [as<T>()] for a string type. *)
Definition as_string (p : ValueProxy) : result string :=
  match m_index p with
  | ByPosition index_type index =>
      if negb (exists_ p) then
        match position_number index_type index with
        | Some position => Throw (Msg.MissingRequiredArgument position)
        | None => Undefined
        end
      else match m_arguments (m_parser p) !! Z.to_nat index with
           | Some value => Return value
           | None => Undefined
           end
  | ByName name =>
      if negb (exists_ p) then Throw (Msg.MissingRequiredOption name)
      else match m_options (m_parser p) !! name with
           | Some value => Return value
           | None => Throw out_of_range
           end
  end.

(** [as<T>()] for an integer type. *)
Definition as_integer (T : IntegerType) (p : ValueProxy) : result Z :=
  bind (as_string p) (fun option =>
    let '(value, result) := from_chars T option 0 in
    if errc_eqb (ec result) invalid_argument
    then Throw (Msg.InvalidNumericValue option)
    else Return value).

(** [as<bool>()]. *)
Definition as_bool (p : ValueProxy) : result bool := Return (exists_ p).

(** The types [as] can be asked for, and the values it then returns. *)
Inductive ValueT : Type :=
  | StringValue
  | IntegerValue (T : IntegerType)
  | BoolValue.

Definition value_of (T : ValueT) : Type :=
  match T with
  | StringValue => string
  | IntegerValue _ => Z
  | BoolValue => bool
  end.

(** [as<T>()], the overload picked by [T]. *)
Definition as_ (T : ValueT) (p : ValueProxy) : result (value_of T) :=
  match T return result (value_of T) with
  | StringValue => as_string p
  | IntegerValue int_t => as_integer int_t p
  | BoolValue => as_bool p
  end.

(** [as(default_value)]: [exists()? as<T>(): default_value]. *)
Definition as_or (T : ValueT) (p : ValueProxy) (default_value : value_of T)
  : result (value_of T) :=
  if exists_ p then as_ T p else Return default_value.

(** ** Base-10 integers, in the words of the claims *)

(** Base-10 integers, as the claims speak of them: a run of digits, at
    least one, with or without a minus sign in front. *)
Fixpoint digits_only (s : string) : bool :=
  match s with
  | EmptyString => true
  | String c s' => is_digit c && digits_only s'
  end.

Definition number_of (s : string) : Z :=
  fold_left (fun acc c => 10 * acc + digit_value c) (list_ascii_of_string s) 0.

Definition unsigned_number (s : string) : option Z :=
  match s with
  | EmptyString => None
  | String _ _ => if digits_only s then Some (number_of s) else None
  end.

Definition base10_integer (s : string) : option Z :=
  match s with
  | EmptyString => None
  | String c s' =>
      if Ascii.eqb c dash then Z.opp <$> unsigned_number s' else unsigned_number s
  end.

(** A base-10 integer in the form the conversion takes for [T]: the minus
    sign only for a signed [T]. *)
Definition literal_for (T : IntegerType) (s : string) : option Z :=
  if negb (is_signed T) && Ascii.eqb (char_at s 0) dash then None
  else base10_integer s.

(** [s] begins with a number in the form taken for [T]: a digit, or for a
    signed [T] a minus sign and a digit. *)
Definition begins_with_number (T : IntegerType) (s : string) : bool :=
  if is_signed T && Ascii.eqb (char_at s 0) dash then is_digit (char_at s 1)
  else is_digit (char_at s 0).

(** ** The class of each token *)

(** What [parse] does with a token of [argv]. *)
Inductive token_class : Type :=
  | ExecutablePath
  | OptionToken
  | OptionValue
  | Positional
  | Separator
  | Remaining.


(** The classes of the tokens one turn of the loop takes: the token
    [argv[i]] and, with it, the value [argv[++i]] or the tokens moved to
    the remaining arguments. *)
Definition step_classes (token : string) (rest : list string) (taken : step)
  : list token_class :=
  match taken with
  | Raise _ => []
  | Break _ => Separator :: map (fun _ => Remaining) rest
  | Continue true _ => [OptionToken; OptionValue]
  | Continue false _ =>
      if Ascii.eqb (char_at token 0) dash then [OptionToken] else [Positional]
  end.

Definition with_classes (classes : list token_class)
    (r : result (ArgParser * list token_class)) : result (ArgParser * list token_class) :=
  bind r (fun '(parsed, later) => Return (parsed, classes ++ later)).

(** [parse_loop], with the classes of the tokens written down. *)
Fixpoint classify_loop (accept_remaining_arguments : bool) (self : ArgParser)
    (tokens : list string) {struct tokens} : result (ArgParser * list token_class) :=
  match tokens with
  | [] => Return (self, [])
  | token :: rest =>
      let taken := parse_body accept_remaining_arguments self token rest in
      match taken with
      | Raise e => Throw e
      | Break self' => Return (self', step_classes token rest taken)
      | Continue false self' =>
          with_classes (step_classes token rest taken)
            (classify_loop accept_remaining_arguments self' rest)
      | Continue true self' =>
          match rest with
          | _ :: rest' =>
              with_classes (step_classes token rest taken)
                (classify_loop accept_remaining_arguments self' rest')
          | [] => Return (self', [OptionToken])
          end
      end
  end.

(** [parse], with the classes of the tokens of [argv]. *)
Definition classify (self : ArgParser) (argv : list string)
    (accept_remaining_arguments : bool) : result (ArgParser * list token_class) :=
  match argv with
  | [] => Undefined
  | executable_path :: tokens =>
      with_classes [ExecutablePath]
        (classify_loop accept_remaining_arguments (reset self executable_path) tokens)
  end.




(** ** Where the loop arrives *)

(** The loop arrives in front of [tokens'] with the parser [here], having
    started in front of [tokens] with [self]: every turn in between went on
    to the next one. *)
Inductive arrives (accept : bool)
  : ArgParser -> list string -> ArgParser -> list string -> Prop :=
  | arrives_here (self : ArgParser) (tokens : list string) :
      arrives accept self tokens self tokens
  | arrives_next (self : ArgParser) (token : string) (rest : list string)
      (self' here : ArgParser) (tokens' : list string) :
      parse_body accept self token rest = Continue false self' ->
      arrives accept self' rest here tokens' ->
      arrives accept self (token :: rest) here tokens'
  | arrives_skip (self : ArgParser) (token value : string) (rest : list string)
      (self' here : ArgParser) (tokens' : list string) :
      parse_body accept self token (value :: rest) = Continue true self' ->
      arrives accept self' rest here tokens' ->
      arrives accept self (token :: value :: rest) here tokens'.

(** The value the option table of an outcome holds under a key. *)
Definition stored (outcome : result ArgParser) (key : string) : option string :=
  match outcome with
  | Return parsed => m_options parsed !! key
  | _ => None
  end.

(** ** The other members *)

(** [getExecutablePath()], [getArgumentCount()], [getOptionCount()] and
    [getRemainingArguments()]. *)
Definition getExecutablePath (self : ArgParser) : string := m_executable_path self.

Definition getArgumentCount (self : ArgParser) : nat := length (m_arguments self).

Definition getOptionCount (self : ArgParser) : nat := size (m_options self).

Definition getRemainingArguments (self : ArgParser) : list string :=
  m_remaining_arguments self.

(** The test under which the loop leaves with [break]: the three reads of
    [argv[i]] and the flag. *)
Definition is_separator (accept_remaining_arguments : bool) (token : string) : bool :=
  Ascii.eqb (char_at token 0) dash && Ascii.eqb (char_at token 1) dash
  && Ascii.eqb (char_at token 2) NUL && accept_remaining_arguments.


(** [operator()(default_value)], [operator==(other)] and [operator T()] of
    the proxy. *)
Definition proxy_call (T : ValueT) (p : ValueProxy) (default_value : value_of T)
  : result (value_of T) :=
  as_or T p default_value.


Definition proxy_convert (T : ValueT) (p : ValueProxy) : result (value_of T) :=
  as_ T p.

(** Every key of the table is the full name of a definition. *)
Definition registered (options : list OptionDef) (table : gmap string string) : Prop :=
  forall key, is_Some (table !! key) ->
    exists option, In option options /\ m_full_name option = key.


(** ** [printAvailableOptions] and the output stream

    Of a [std::ostream] the model keeps what the function touches: the
    characters written, the field width, the fill character and whether
    the adjustment is [left].  The stream is taken to be good. *)

Record ostream : Type := mk_ostream {
  written : string;
  field_width : nat;
  fill_char : ascii;
  adjust_left : bool
}.

Fixpoint fill_string (n : nat) (c : ascii) : string :=
  match n with
  | O => EmptyString
  | S n' => String c (fill_string n' c)
  end.

(** [stream << s] for a string or a character: padded with the fill
    character up to the field width, after the text when the adjustment is
    [left] and in front of it otherwise; the width goes back to 0. *)
Definition put (stream : ostream) (s : string) : ostream :=
  let padding := fill_string (field_width stream - String.length s) (fill_char stream) in
  mk_ostream
    (written stream +:+ (if adjust_left stream then s +:+ padding else padding +:+ s))
    0 (fill_char stream) (adjust_left stream).

(** [stream << std::left], [stream << std::setw(n)], [stream << std::endl]. *)
Definition std_left (stream : ostream) : ostream :=
  mk_ostream (written stream) (field_width stream) (fill_char stream) true.

Definition setw (n : nat) (stream : ostream) : ostream :=
  mk_ostream (written stream) n (fill_char stream) (adjust_left stream).

Definition newline : string := String (ascii_of_nat 10) EmptyString.

Definition endl (stream : ostream) : ostream :=
  mk_ostream (written stream +:+ newline) (field_width stream) (fill_char stream)
    (adjust_left stream).

(** The lambda [calc_optlen]. *)
Definition calc_optlen (option : OptionDef) : nat :=
  (String.length (m_full_name option) + 8 * (if m_expect_value option then 1 else 0))%nat.

(** [std::max_element(first, last, comp)]: the first of the largest
    elements, none for an empty range (the iterator [last]). *)
Definition max_element {A : Type} (comp : A -> A -> bool) (l : list A) : option A :=
  match l with
  | [] => None
  | first :: rest =>
      Some (fold_left (fun largest x => if comp largest x then x else largest) rest first)
  end.

(** The body of the loop of [printAvailableOptions].  The subtraction is
    made in [size_t]; the longest length is never below the length of a
    full name. *)
Definition print_option (longest_option_length : nat) (stream : ostream)
    (option : OptionDef) : ostream :=
  let stream :=
    std_left
      (put (put (put (put stream "-") (of_char (m_short_name option))) ", ") "--") in
  let stream :=
    if m_expect_value option then
      put (setw (longest_option_length - String.length (m_full_name option))
             (put stream (m_full_name option)))
        "=<value>"
    else put (setw longest_option_length stream) (m_full_name option) in
  endl (put (put stream " - ") (m_description option)).

(** [printAvailableOptions(stream)]; dereferencing the result of
    [std::max_element] on an empty vector is undefined. *)
Definition printAvailableOptions (self : ArgParser) (stream : ostream) : result ostream :=
  match max_element (fun a b => (calc_optlen a <? calc_optlen b)%nat)
          (m_available_options self) with
  | None => Undefined
  | Some longest_option =>
      Return (fold_left (print_option (calc_optlen longest_option))
                (m_available_options self) stream)
  end.

(** [operator<<(stream, parser)]. *)
Definition insert_parser (stream : ostream) (parser : ArgParser) : result ostream :=
  printAvailableOptions parser stream.

(** The line of an option in a listing whose name column is [column]
    characters wide. *)
Definition option_column (option : OptionDef) : string :=
  m_full_name option +:+ (if m_expect_value option then "=<value>" else EmptyString).

Definition option_line (fill : ascii) (column : nat) (option : OptionDef) : string :=
  "-" +:+ of_char (m_short_name option) +:+ ", --"
  +:+ option_column option
  +:+ fill_string (column - String.length (option_column option)) fill
  +:+ " - " +:+ m_description option +:+ newline.

Fixpoint concat_lines (lines : list string) : string :=
  match lines with
  | [] => EmptyString
  | line :: lines' => line +:+ concat_lines lines'
  end.

(** ** Sample data *)

Definition demo_options : list OptionDef :=
  [ mkOptionDef "verbose" "v" EmptyString false;
    mkOptionDef "output" "o" EmptyString true ].

Definition clash_options : list OptionDef :=
  [ mkOptionDef "verbose" "v" EmptyString false;
    mkOptionDef "output" "o" EmptyString true;
    mkOptionDef "version" "v" EmptyString false ].

Definition count_parser (raw : string) : ArgParser :=
  mkArgParser "prog" [mkOptionDef "count" "c" EmptyString true]
    (<["count" := raw]> ∅) [] [].

(** * Properties *)

(** ** Runs on sample data *)

Example scenario_parse :
  bind (ArgParser_new demo_options) (fun p =>
    parse p ["prog"; "-v"; "--output=out.txt"; "file1"; "file2"; "--"; "extra1"; "extra2"] true)
  = Return (mkArgParser "prog" demo_options
              (<["output" := "out.txt"]> (<["verbose" := EmptyString]> ∅))
              ["file1"; "file2"] ["extra1"; "extra2"]).
Proof. vm_compute. reflexivity. Qed.

Example scenario_classes :
  classify (mkArgParser EmptyString demo_options ∅ [] [])
    ["prog"; "-v"; "--output"; "out.txt"; "file1"; "--"; "extra1"; "-o"] true
  = Return (mkArgParser "prog" demo_options
              (<["output" := "out.txt"]> (<["verbose" := EmptyString]> ∅))
              ["file1"] ["extra1"; "-o"],
            [ExecutablePath; OptionToken; OptionToken; OptionValue; Positional;
             Separator; Remaining; Remaining]).
Proof. vm_compute. reflexivity. Qed.

Example as_integer_42 :
  as_integer int32_t (get (count_parser "42") (ByName "count")) = Return 42.
Proof. vm_compute. reflexivity. Qed.

Example as_integer_abc :
  as_integer int32_t (get (count_parser "abc") (ByName "count"))
  = Throw (Msg.InvalidNumericValue "abc").
Proof. vm_compute. reflexivity. Qed.

Example as_integer_negative :
  as_integer int32_t (get (count_parser "-2147483648") (ByName "count"))
  = Return (-2147483648).
Proof. vm_compute. reflexivity. Qed.

Example as_integer_trailing :
  as_integer int32_t (get (count_parser "12abc") (ByName "count")) = Return 12.
Proof. vm_compute. reflexivity. Qed.

Example as_integer_overflow :
  as_integer int32_t (get (count_parser "2147483648") (ByName "count")) = Return 0.
Proof. vm_compute. reflexivity. Qed.

Example as_integer_unsigned_minus :
  as_integer uint32_t (get (count_parser "-1") (ByName "count"))
  = Throw (Msg.InvalidNumericValue "-1").
Proof. vm_compute. reflexivity. Qed.

Example missing_argument_message :
  as_string (get (count_parser "1") (ByPosition int32_t 0))
  = Throw (ArgParserException "missing required argument at position 1").
Proof. vm_compute. reflexivity. Qed.

Example missing_argument_unsigned_maximum :
  as_string (get (count_parser "1") (ByPosition uint32_t 4294967295))
  = Throw (ArgParserException "missing required argument at position 0").
Proof. vm_compute. reflexivity. Qed.

Example missing_argument_signed_maximum :
  as_string (get (count_parser "1") (ByPosition int32_t 2147483647)) = Undefined.
Proof. vm_compute. reflexivity. Qed.

(** ** The constructor *)

Section Constructor.

Implicit Types (options rest : list OptionDef) (c : ascii).

Lemma find_short_name_None options c :
  find_short_name options c = None <-> c ∉ map m_short_name options.
Proof.
  unfold find_short_name. induction options as [|o options IH]; simpl.
  - split; [intros _; apply not_elem_of_nil | done].
  - rewrite not_elem_of_cons. destruct (Ascii.eqb_spec (m_short_name o) c) as [->|Hne].
    + split; [done | intros [? _]; done].
    + rewrite IH. split; [intros ?; split; congruence | intros [_ ?]; done].
Qed.

Lemma find_short_name_Some options c duplicate :
  find_short_name options c = Some duplicate ->
  m_short_name duplicate = c /\ exists k, options !! k = Some duplicate.
Proof.
  unfold find_short_name. intros H. apply List.find_some in H as [Hin Heq].
  split; [by apply Ascii.eqb_eq |].
  apply list_elem_of_In, list_elem_of_lookup in Hin. exact Hin.
Qed.

Lemma find_duplicate_None options :
  find_duplicate options = None <-> NoDup (map m_short_name options).
Proof.
  induction options as [|o options IH]; simpl.
  - split; [intros _; constructor | done].
  - rewrite NoDup_cons, <- IH, <- find_short_name_None.
    destruct (find_short_name options (m_short_name o)); split; try done.
    + intros [? _]; done.
    + intros [_ ?]; done.
Qed.

Lemma find_duplicate_Some options e :
  find_duplicate options = Some e ->
  exists i j first second,
    (i < j)%nat /\ options !! i = Some first /\ options !! j = Some second /\
    m_short_name first = m_short_name second /\
    e = Msg.ConfigurationError (m_short_name first) (m_full_name first)
          (m_full_name second).
Proof.
  induction options as [|o options IH]; simpl; [done |].
  destruct (find_short_name options (m_short_name o)) as [d|] eqn:Hfind.
  - intros [= <-]. apply find_short_name_Some in Hfind as [Hd [k Hk]].
    exists 0%nat, (S k), o, d. repeat split; [lia | done ..].
  - intros He. destruct (IH He) as (i & j & a & b & Hij & Ha & Hb & Hab & ->).
    exists (S i), (S j), a, b. repeat split; [lia | done ..].
Qed.

End Constructor.

(** Claim C5.  When the short names of the definitions are pairwise
    distinct the constructor succeeds and the parser holds the list as it
    was given; when two definitions share a short name it throws, and the
    message is built from the short name and the two full names of two
    definitions of the list that share it. *)
Theorem ArgParser_new_short_names (options : list OptionDef) :
  (NoDup (map m_short_name options) ->
   ArgParser_new options = Return (mkArgParser EmptyString options ∅ [] []))
  /\
  (forall i j a b,
     i <> j -> options !! i = Some a -> options !! j = Some b ->
     m_short_name a = m_short_name b ->
     exists i' j' first second,
       (i' < j')%nat /\ options !! i' = Some first /\ options !! j' = Some second /\
       m_short_name first = m_short_name second /\
       ArgParser_new options =
         Throw (Msg.ConfigurationError (m_short_name first) (m_full_name first)
                  (m_full_name second))).
Proof.
  unfold ArgParser_new. split.
  - intros Hnd. apply find_duplicate_None in Hnd. by rewrite Hnd.
  - intros i j a b Hij Ha Hb Hab.
    destruct (find_duplicate options) as [e|] eqn:Hdup.
    + destruct (find_duplicate_Some _ _ Hdup) as (i' & j' & x & y & ? & ? & ? & ? & ->).
      by exists i', j', x, y.
    + exfalso. apply find_duplicate_None in Hdup.
      apply Hij. eapply NoDup_lookup; [exact Hdup | |].
      * rewrite list_lookup_fmap, Ha. reflexivity.
      * rewrite list_lookup_fmap, Hb. simpl. by rewrite Hab.
Qed.

Lemma ArgParser_new_short_names_witness :
  ArgParser_new demo_options = Return (mkArgParser EmptyString demo_options ∅ [] [])
  /\ exists i' j' first second,
       (i' < j')%nat /\ clash_options !! i' = Some first /\
       clash_options !! j' = Some second /\
       m_short_name first = m_short_name second /\
       ArgParser_new clash_options =
         Throw (Msg.ConfigurationError (m_short_name first) (m_full_name first)
                  (m_full_name second)).
Proof.
  split.
  - apply (proj1 (ArgParser_new_short_names demo_options)).
    repeat constructor; vm_compute; intros H; inversion H; subst;
      match goal with Hx : _ ∈ _ |- _ => inversion Hx end.
  - apply (proj2 (ArgParser_new_short_names clash_options) 0%nat 2%nat
             (mkOptionDef "verbose" "v" EmptyString false)
             (mkOptionDef "version" "v" EmptyString false));
      [lia | reflexivity | reflexivity | reflexivity].
Defined.

Example clash_message :
  ArgParser_new clash_options
  = Throw (runtime_error "found short option duplicates for -v (--verbose and --version)").
Proof. vm_compute. reflexivity. Qed.

(** ** The classification loop *)

Ltac body_cases :=
  unfold parse_body;
  repeat match goal with
         | |- context [if ?b then _ else _] => destruct b eqn:?
         | |- context [match ?x with _ => _ end] => destruct x eqn:?
         end.

Section Loop.

Implicit Types (self here : ArgParser) (token : string) (rest tokens : list string).
Implicit Types (accept : bool).

Lemma arrives_parse_loop accept self tokens here tokens' :
  arrives accept self tokens here tokens' ->
  parse_loop accept self tokens = parse_loop accept here tokens'.
Proof.
  induction 1 as [| ? ? ? ? ? ? Hbody _ IH | ? ? ? ? ? ? ? Hbody _ IH]; simpl.
  - reflexivity.
  - simpl in Hbody. rewrite Hbody. exact IH.
  - rewrite Hbody. exact IH.
Qed.

Lemma next_is_value_Some rest value :
  next_is_value rest = Some value ->
  exists rest', rest = value :: rest' /\ Ascii.eqb (char_at value 0) dash = false.
Proof.
  destruct rest as [|next rest']; simpl; [done |].
  destruct (Ascii.eqb (char_at next 0) dash) eqn:E; [done |].
  intros [= <-]. by exists rest'.
Qed.

Lemma next_is_value_None rest :
  rest = [] \/ (exists next rest', rest = next :: rest' /\ char_at next 0 = dash) ->
  next_is_value rest = None.
Proof.
  intros [-> | (next & rest' & -> & H)]; simpl; [done |].
  by rewrite H.
Qed.

(** The tokens after [argv[i]] matter to a turn that does not [break] only
    through the test on [argv[i+1]]. *)
Lemma parse_body_rest accept self token rest rest' :
  next_is_value rest = next_is_value rest' ->
  (forall self', parse_body accept self token rest <> Break self') ->
  parse_body accept self token rest' = parse_body accept self token rest.
Proof.
  unfold parse_body. intros <-.
  destruct (Ascii.eqb (char_at token 0) dash); [| done].
  destruct (Ascii.eqb (char_at token 1) dash); [| done].
  destruct (Ascii.eqb (char_at token 2) NUL && accept); [| done].
  intros H. by destruct (H (insert_remaining self rest)).
Qed.

Lemma parse_body_Break accept self token rest self' :
  parse_body accept self token rest = Break self' ->
  char_at token 0 = dash /\ char_at token 1 = dash /\ char_at token 2 = NUL /\
  accept = true /\ self' = insert_remaining self rest.
Proof.
  body_cases; try done. intros [= <-].
  repeat match goal with
         | H : Ascii.eqb _ _ = true |- _ => apply Ascii.eqb_eq in H
         | H : _ && _ = true |- _ => apply andb_true_iff in H as [? ?]
         end.
  done.
Qed.

Lemma parse_body_took_next accept self token rest self' :
  parse_body accept self token rest = Continue true self' ->
  char_at token 0 = dash /\
  exists value rest', rest = value :: rest' /\ Ascii.eqb (char_at value 0) dash = false.
Proof.
  body_cases; try done; intros _;
    (split; [by apply Ascii.eqb_eq |]);
    match goal with
    | H : next_is_value _ = Some ?v |- _ =>
        apply next_is_value_Some in H as (rest' & -> & ?); by exists v, rest'
    end.
Qed.

Lemma parse_body_options accept self token rest took self' :
  parse_body accept self token rest = Continue took self' ->
  m_available_options self' = m_available_options self /\
  m_executable_path self' = m_executable_path self /\
  m_remaining_arguments self' = m_remaining_arguments self.
Proof. body_cases; try done; by intros [= <- <-]. Qed.

Lemma arrives_options accept self tokens here tokens' :
  arrives accept self tokens here tokens' ->
  m_available_options here = m_available_options self /\
  m_executable_path here = m_executable_path self /\
  m_remaining_arguments here = m_remaining_arguments self.
Proof.
  induction 1 as [| ? ? ? ? ? ? Hbody _ IH | ? ? ? ? ? ? ? Hbody _ IH]; [done | |];
    apply parse_body_options in Hbody as (Ho & He & Hr);
    rewrite Ho, He, Hr in IH; exact IH.
Qed.

(** A C string whose first three reads are ['-'], ['-'] and the terminator
    is the token [--]. *)
Lemma separator_cstring token :
  cstring token = true ->
  char_at token 0 = dash -> char_at token 1 = dash -> char_at token 2 = NUL ->
  token = "--".
Proof.
  destruct token as [|a [|b [|c s]]]; unfold char_at; simpl; try done.
  - by intros _ -> ->.
  - intros Hc _ _ ->. exfalso. revert Hc. rewrite !andb_true_iff.
    intros (_ & _ & Hc & _). done.
Qed.

(** When the loop runs over [before] to its end and no token of [before]
    is the separator, a longer vector takes it to the token after
    [before]; a separator there is not taken as a value. *)
Lemma parse_loop_arrives accept after (n : nat) :
  forall self before parsed,
    (length before <= n)%nat ->
    Forall (fun token => cstring token = true) before ->
    "--" ∉ before ->
    parse_loop accept self before = Return parsed ->
    arrives accept self (before ++ "--" :: after) parsed ("--" :: after).
Proof.
  induction n as [|n IH]; intros self before parsed Hlen Hcs Hsep Hloop.
  - destruct before; [| simpl in Hlen; lia].
    injection Hloop as <-. apply arrives_here.
  - destruct before as [|token rest]; [injection Hloop as <-; apply arrives_here |].
    simpl in Hloop, Hlen. apply Forall_cons in Hcs as [Hc Hcs].
    apply not_elem_of_cons in Hsep as [Hne Hsep].
    destruct (parse_body accept self token rest) as [[|] self' | self' | e] eqn:Hbody;
      [| | | done].
    + destruct (parse_body_took_next _ _ _ _ _ Hbody) as (_ & value & rest' & -> & Hv).
      simpl. apply arrives_skip with self'.
      { rewrite <- Hbody. apply parse_body_rest; [done | by rewrite Hbody]. }
      apply Forall_cons in Hcs as [_ Hcs]. apply not_elem_of_cons in Hsep as [_ Hsep].
      apply IH; [simpl in Hlen; lia | done ..].
    + simpl. apply arrives_next with self'.
      * rewrite <- Hbody. apply parse_body_rest; [| by rewrite Hbody].
        destruct rest; reflexivity.
      * apply IH; [lia | done ..].
    + apply parse_body_Break in Hbody as (H0 & H1 & H2 & _).
      destruct Hne. symmetry. by apply separator_cstring.
Qed.

(** An error in front of the separator is the error of the whole vector:
    the parse of the tokens [before] succeeds exactly when no error occurs
    in front of the separator. *)
Lemma parse_loop_throws_before accept after (n : nat) :
  forall self before e,
    (length before <= n)%nat ->
    parse_loop accept self before = Throw e ->
    parse_loop accept self (before ++ "--" :: after) = Throw e.
Proof.
  induction n as [|n IH]; intros self before e Hlen Hloop.
  - destruct before; [done | simpl in Hlen; lia].
  - destruct before as [|token rest]; [done |]. simpl in Hloop, Hlen. simpl.
    assert (Hrest : next_is_value (rest ++ "--" :: after) = next_is_value rest)
      by by destruct rest.
    destruct (parse_body accept self token rest) as [[|] self' | self' | e'] eqn:Hbody;
      [| | done |].
    + rewrite (parse_body_rest _ _ _ rest _ (eq_sym Hrest)), Hbody
        by by rewrite Hbody.
      destruct (parse_body_took_next _ _ _ _ _ Hbody) as (_ & value & rest' & -> & _).
      simpl. apply IH; [simpl in Hlen; lia | done].
    + rewrite (parse_body_rest _ _ _ rest _ (eq_sym Hrest)), Hbody
        by by rewrite Hbody.
      apply IH; [lia | done].
    + rewrite (parse_body_rest _ _ _ rest _ (eq_sym Hrest)), Hbody
        by by rewrite Hbody.
      done.
Qed.

End Loop.

(** ** The separator [--] *)

(** Claim C2.  With [accept_remaining_arguments] enabled, take a vector
    whose first token [--] comes after the tokens [before] (C strings, none
    of them [--]), and let the tokens in front of it parse without an
    error, to [parsed].  Then the whole vector parses, the tokens [after]
    the separator are the remaining arguments, as they are and in their
    order, and the option table and the arguments are those of [parsed],
    which were made without the tokens [after]. *)
Theorem parse_remaining_arguments (self : ArgParser) (executable_path : string)
    (before after : list string) (parsed : ArgParser) :
  Forall (fun token => cstring token = true) before ->
  "--" ∉ before ->
  parse self (executable_path :: before) true = Return parsed ->
  parse self (executable_path :: before ++ "--" :: after) true =
    Return (mkArgParser (m_executable_path parsed) (m_available_options parsed)
              (m_options parsed) (m_arguments parsed) after).
Proof.
  unfold parse. intros Hcs Hsep Hloop.
  pose proof (parse_loop_arrives true after (length before) _ _ _
                (Nat.le_refl _) Hcs Hsep Hloop) as Harr.
  rewrite (arrives_parse_loop _ _ _ _ _ Harr).
  apply arrives_options in Harr as (_ & _ & Hrem). simpl in Hrem.
  simpl. unfold insert_remaining. by rewrite Hrem, app_nil_r.
Qed.

Lemma parse_remaining_arguments_witness :
  parse (mkArgParser EmptyString demo_options ∅ [] [])
    ("prog" :: ["-v"; "--output"; "out.txt"; "file1"] ++ "--" :: ["-x"; "--"; "y"]) true
  = Return (mkArgParser "prog" demo_options
              (<["output" := "out.txt"]> (<["verbose" := EmptyString]> ∅))
              ["file1"] ["-x"; "--"; "y"]).
Proof.
  refine (parse_remaining_arguments (mkArgParser EmptyString demo_options ∅ [] [])
            "prog" ["-v"; "--output"; "out.txt"; "file1"] ["-x"; "--"; "y"]
            (mkArgParser "prog" demo_options
               (<["output" := "out.txt"]> (<["verbose" := EmptyString]> ∅))
               ["file1"] []) _ _ _).
  - repeat constructor.
  - intros H. repeat (apply elem_of_cons in H as [H | H]; [discriminate H |]).
    by apply elem_of_nil in H.
  - vm_compute. reflexivity.
Defined.

(** ** A value that is not there *)

(** Claim C4.  Let the loop arrive at an option token whose definition
    expects a value, with no token after it or with a next token that
    begins with [-].  For the long form without [=] (and not the
    separator) [parse] throws "expected value" for the full name; for the
    short form it throws "expected value" for the short name.  Nothing is
    returned, so the next token is not taken as the value. *)
Theorem parse_missing_value (self : ArgParser) (executable_path : string)
    (tokens : list string) (accept : bool) (here : ArgParser) (token : string)
    (rest : list string) (option : OptionDef) :
  arrives accept (reset self executable_path) tokens here (token :: rest) ->
  char_at token 0 = dash ->
  m_expect_value option = true ->
  rest = [] \/ (exists next rest', rest = next :: rest' /\ char_at next 0 = dash) ->
  (char_at token 1 = dash ->
   Ascii.eqb (char_at token 2) NUL && accept = false ->
   strchr (advance 2 token) equals = None ->
   find_full_name (m_available_options self) (advance 2 token) = Some option ->
   parse self (executable_path :: tokens) accept =
     Throw (Msg.MissingOptionValue (advance 2 token)))
  /\
  (char_at token 1 <> dash ->
   find_short_name (m_available_options self) (char_at token 1) = Some option ->
   parse self (executable_path :: tokens) accept =
     Throw (Msg.MissingShortOptionValue (char_at token 1))).
Proof.
  intros Harr H0 Hexp Hnext. apply next_is_value_None in Hnext.
  unfold parse. rewrite (arrives_parse_loop _ _ _ _ _ Harr).
  apply arrives_options in Harr as (Hopts & _ & _). simpl in Hopts.
  simpl. unfold parse_body. rewrite H0, Hopts, Hnext. simpl. split.
  - intros -> -> -> ->. simpl. by rewrite Hexp.
  - intros H1 ->. apply Ascii.eqb_neq in H1. by rewrite H1, Hexp.
Qed.

Lemma parse_missing_value_witness :
  parse (mkArgParser EmptyString demo_options ∅ [] [])
    ["prog"; "file1"; "--output"; "-v"] true
  = Throw (ArgParserException "expected value for option '--output'")
  /\
  parse (mkArgParser EmptyString demo_options ∅ [] [])
    ["prog"; "-v"; "-o"] true
  = Throw (ArgParserException "expected value for option '-o'").
Proof.
  split.
  - apply (proj1 (parse_missing_value (mkArgParser EmptyString demo_options ∅ [] [])
             "prog" ["file1"; "--output"; "-v"] true
             (mkArgParser "prog" demo_options ∅ ["file1"] [])
             "--output" ["-v"] (mkOptionDef "output" "o" EmptyString true)
             ltac:(eapply arrives_next; [reflexivity | apply arrives_here])
             eq_refl eq_refl
             (or_intror (ex_intro _ "-v" (ex_intro _ [] (conj eq_refl eq_refl))))));
      reflexivity.
  - apply (proj2 (parse_missing_value (mkArgParser EmptyString demo_options ∅ [] [])
             "prog" ["-v"; "-o"] true
             (mkArgParser "prog" demo_options (<["verbose" := EmptyString]> ∅) [] [])
             "-o" [] (mkOptionDef "output" "o" EmptyString true)
             ltac:(eapply arrives_next; [vm_compute; reflexivity | apply arrives_here])
             eq_refl eq_refl (or_introl eq_refl)));
      [discriminate | reflexivity].
Defined.

(** ** Short options *)

(** Claim C9.  A token that begins with [-] and whose second character [c]
    is not [-] is handled as the short option [c], whatever follows [c] in
    the token: the turn of the loop does with it what it does with the
    two-character token [-c], and that is fixed by the definition found
    for [c] and by the test on the next token. *)
Theorem parse_short_option_second_char (accept : bool) (self : ArgParser)
    (token : string) (rest : list string) (c : ascii) :
  char_at token 0 = dash ->
  char_at token 1 = c ->
  c <> dash ->
  parse_body accept self token rest
    = parse_body accept self (String dash (String c EmptyString)) rest
  /\
  parse_body accept self token rest =
    match find_short_name (m_available_options self) c with
    | None => Raise (Msg.UnrecognizedShortOption c)
    | Some option =>
        if m_expect_value option then
          match next_is_value rest with
          | Some value => Continue true (set_option self (m_full_name option) value)
          | None => Raise (Msg.MissingShortOptionValue c)
          end
        else Continue false (set_option self (m_full_name option) EmptyString)
    end
  /\
  parse_loop accept self (token :: rest)
    = parse_loop accept self (String dash (String c EmptyString) :: rest).
Proof.
  intros H0 H1 Hc. apply Ascii.eqb_neq in Hc.
  assert (Hbody : forall t, char_at t 0 = dash -> char_at t 1 = c ->
            parse_body accept self t rest =
              match find_short_name (m_available_options self) c with
              | None => Raise (Msg.UnrecognizedShortOption c)
              | Some option =>
                  if m_expect_value option then
                    match next_is_value rest with
                    | Some value =>
                        Continue true (set_option self (m_full_name option) value)
                    | None => Raise (Msg.MissingShortOptionValue c)
                    end
                  else Continue false (set_option self (m_full_name option) EmptyString)
              end).
  { intros t Ht0 Ht1. unfold parse_body. rewrite Ht0, Ht1, Hc. reflexivity. }
  assert (Heq : parse_body accept self token rest
                = parse_body accept self (String dash (String c EmptyString)) rest).
  { rewrite (Hbody token H0 H1). symmetry. by apply Hbody. }
  split; [exact Heq |]. split; [by apply Hbody |].
  simpl. by rewrite Heq.
Qed.

Lemma parse_short_option_second_char_witness :
  parse_loop true (mkArgParser "prog" demo_options ∅ [] []) ["-out"; "a.txt"]
  = parse_loop true (mkArgParser "prog" demo_options ∅ [] []) ["-o"; "a.txt"].
Proof.
  apply (parse_short_option_second_char true (mkArgParser "prog" demo_options ∅ [] [])
           "-out" ["a.txt"] "o" eq_refl eq_refl).
  discriminate.
Defined.

Example parse_short_option_long_token :
  parse (mkArgParser EmptyString demo_options ∅ [] []) ["prog"; "-out"; "a.txt"] true
  = Return (mkArgParser "prog" demo_options (<["output" := "a.txt"]> ∅) [] []).
Proof. vm_compute. reflexivity. Qed.

(** ** The token [-] *)

(** On the token [-] the read of the second character gives the
    terminator, which is looked up as a short name. *)
Lemma parse_body_single_dash (accept : bool) (self : ArgParser) (rest : list string) :
  find_short_name (m_available_options self) NUL = None ->
  parse_body accept self "-" rest = Raise (Msg.UnrecognizedShortOption NUL).
Proof.
  intros H. unfold parse_body.
  change (char_at "-" 0) with dash. change (char_at "-" 1) with NUL.
  change (Ascii.eqb dash dash) with true. change (Ascii.eqb NUL dash) with false.
  cbv iota. by rewrite H.
Qed.

(** Claim C8.  With the options [verbose] ([-v]) and [output] ([-o]) the
    vector [prog -] does not parse to the one argument [-]: the token is
    looked up as the short option named by the terminator and [parse]
    throws "unrecognized option". *)
Theorem parse_single_dash_throws :
  parse (mkArgParser EmptyString demo_options ∅ [] []) ["prog"; "-"] true
  = Throw (Msg.UnrecognizedShortOption NUL)
  /\
  parse (mkArgParser EmptyString demo_options ∅ [] []) ["prog"; "-"] true
  <> Return (mkArgParser "prog" demo_options ∅ ["-"] []).
Proof. split; [vm_compute; reflexivity | discriminate]. Qed.

(** ** [--name=value] and [--name value] *)

Section AttachedValue.

Implicit Types (s t name value : string) (c : ascii).

Lemma strchr_None s c : occurs c s = false -> strchr s c = None.
Proof.
  induction s as [|x s IH]; simpl; [done |].
  intros H. apply orb_false_iff in H as [Hx Hs]. by rewrite Hx, IH.
Qed.

Lemma strchr_append s c t :
  occurs c s = false -> strchr (s +:+ String c t) c = Some (s, t).
Proof.
  induction s as [|x s IH]; simpl.
  - intros _. by rewrite Ascii.eqb_refl.
  - intros H. apply orb_false_iff in H as [Hx Hs]. by rewrite Hx, IH.
Qed.

Lemma strchr_Some s c before after :
  strchr s c = Some (before, after) ->
  s = before +:+ String c after /\ occurs c before = false.
Proof.
  revert before. induction s as [|x s IH]; simpl; intros before; [done |].
  destruct (Ascii.eqb_spec x c) as [->|Hne].
  - by intros [= <- <-].
  - destruct (strchr s c) as [[b a]|]; [| done].
    intros [= <- <-]. destruct (IH b eq_refl) as [-> Hb].
    split; [done |]. simpl. apply Ascii.eqb_neq in Hne. by rewrite Hne.
Qed.

Lemma append_String x s t : String x s +:+ t = String x (s +:+ t).
Proof. reflexivity. Qed.

Lemma append_assoc s t u : (s +:+ t) +:+ u = s +:+ t +:+ u.
Proof.
  induction s as [|x s IH]; [reflexivity |].
  by rewrite !append_String, IH.
Qed.

Lemma append_longer s c t : s +:+ String c t <> s.
Proof.
  induction s as [|x s IH]; [discriminate |].
  rewrite append_String. by intros [= ?].
Qed.

Lemma find_full_name_Some options name option :
  find_full_name options name = Some option -> m_full_name option = name.
Proof.
  unfold find_full_name. intros H. apply List.find_some in H as [_ H].
  by apply String.eqb_eq.
Qed.

Lemma char_at_append_0 s t : char_at s 0 <> NUL -> char_at (s +:+ t) 0 = char_at s 0.
Proof. destruct s; [done | reflexivity]. Qed.

End AttachedValue.

(** Claim C3.  Let [name] be the full name of a definition that expects a
    value, [name] not empty, and [value] a string that does not begin with
    [-].  The parse of the one token [--name=value] and the parse of the
    two tokens [--name value] hold the same under the key [name]; when
    [name] has no [=] in it both succeed and what they hold is [value]. *)
Theorem parse_attached_value_same (self : ArgParser) (executable_path name value : string)
    (option : OptionDef) (accept : bool) :
  find_full_name (m_available_options self) name = Some option ->
  m_expect_value option = true ->
  char_at name 0 <> NUL ->
  char_at value 0 <> dash ->
  stored (parse self [executable_path; "--" +:+ name +:+ "=" +:+ value] accept) name
    = stored (parse self [executable_path; "--" +:+ name; value] accept) name
  /\
  (occurs equals name = false ->
   parse self [executable_path; "--" +:+ name +:+ "=" +:+ value] accept
     = Return (set_option (reset self executable_path) name value) /\
   parse self [executable_path; "--" +:+ name; value] accept
     = Return (set_option (reset self executable_path) name value) /\
   stored (parse self [executable_path; "--" +:+ name; value] accept) name
     = Some value).
Proof.
  intros Hfind Hexp Hname Hvalue.
  apply Ascii.eqb_neq in Hvalue.
  assert (Hsep : forall t, Ascii.eqb (char_at (name +:+ t) 0) NUL = false).
  { intros t. rewrite char_at_append_0 by done. by apply Ascii.eqb_neq. }
  assert (Hsep' : Ascii.eqb (char_at name 0) NUL = false) by by apply Ascii.eqb_neq.
  pose proof (find_full_name_Some _ _ _ Hfind) as Hfull.
  assert (Hplain : occurs equals name = false ->
            parse self [executable_path; "--" +:+ name +:+ "=" +:+ value] accept
              = Return (set_option (reset self executable_path) name value) /\
            parse self [executable_path; "--" +:+ name; value] accept
              = Return (set_option (reset self executable_path) name value)).
  { intros Hocc. unfold parse, parse_loop, parse_body.
    change (char_at ("--" +:+ ?s) 0) with dash.
    change (char_at ("--" +:+ ?s) 1) with dash.
    change (Ascii.eqb dash dash) with true. cbv iota.
    change (char_at ("--" +:+ name +:+ "=" +:+ value) 2)
      with (char_at (name +:+ "=" +:+ value) 0).
    change (char_at ("--" +:+ name) 2) with (char_at name 0).
    rewrite Hsep, Hsep'. simpl andb. cbv iota.
    change (advance 2 ("--" +:+ ?s)) with s.
    change ("=" +:+ value) with (String equals value).
    rewrite (strchr_append _ _ _ Hocc), (strchr_None _ _ Hocc).
    change (m_available_options (reset self executable_path))
      with (m_available_options self).
    rewrite Hfind, Hexp. simpl next_is_value. rewrite Hvalue.
    by rewrite Hfull. }
  split.
  - destruct (occurs equals name) eqn:Hocc.
    + assert (exists a b, strchr name equals = Some (a, b)) as (a & b & Hsplit).
      { clear -Hocc. induction name as [|x s IH]; simpl in *; [done |].
        destruct (Ascii.eqb x equals); [by eexists _, _ |].
        destruct (IH Hocc) as (a & b & ->). by eexists _, _. }
      destruct (strchr_Some _ _ _ _ Hsplit) as [Hname_eq Ha].
      assert (Hkey : a <> name) by (rewrite Hname_eq; intros H; by eapply append_longer).
      assert (Hsplit' : strchr (name +:+ String equals value) equals
                        = Some (a, b +:+ String equals value)).
      { rewrite Hname_eq at 1. rewrite append_assoc. simpl.
        by apply strchr_append. }
      unfold parse, parse_loop, parse_body.
      change (char_at ("--" +:+ ?s) 0) with dash.
      change (char_at ("--" +:+ ?s) 1) with dash.
      change (Ascii.eqb dash dash) with true. cbv iota.
      change (char_at ("--" +:+ name +:+ "=" +:+ value) 2)
        with (char_at (name +:+ "=" +:+ value) 0).
      change (char_at ("--" +:+ name) 2) with (char_at name 0).
      rewrite Hsep, Hsep'. simpl andb. cbv iota.
      change (advance 2 ("--" +:+ ?s)) with s.
      change ("=" +:+ value) with (String equals value).
      rewrite Hsplit, Hsplit'.
      change (m_available_options (reset self executable_path))
        with (m_available_options self).
      destruct (find_full_name (m_available_options self) a) as [o|] eqn:Ho; [| done].
      apply find_full_name_Some in Ho. rewrite Ho.
      destruct (m_expect_value o); rewrite Hvalue; simpl;
        by rewrite !lookup_insert_ne.
    + destruct (Hplain eq_refl) as [-> ->]. reflexivity.
  - intros Hocc. destruct (Hplain Hocc) as [H1 H2].
    split; [exact H1 |]. split; [exact H2 |].
    rewrite H2. simpl. apply lookup_insert_eq.
Qed.

Lemma parse_attached_value_same_witness :
  stored (parse (mkArgParser EmptyString demo_options ∅ [] [])
            ["prog"; "--output=out.txt"] true) "output" = Some "out.txt"
  /\
  stored (parse (mkArgParser EmptyString demo_options ∅ [] [])
            ["prog"; "--output"; "out.txt"] true) "output" = Some "out.txt".
Proof.
  destruct (parse_attached_value_same (mkArgParser EmptyString demo_options ∅ [] [])
              "prog" "output" "out.txt" (mkOptionDef "output" "o" EmptyString true) true
              eq_refl eq_refl ltac:(discriminate) ltac:(discriminate))
    as [Hsame [_ [_ Hvalue]]]; [reflexivity |].
  split; [rewrite <- Hvalue; exact Hsame | exact Hvalue].
Defined.

Section FromChars.

Implicit Types (s raw : string) (T : IntegerType) (p : ValueProxy).

Lemma read_digits_digits_only s :
  digits_only s = true ->
  forall acc n,
    read_digits s acc n =
      (fold_left (fun acc c => 10 * acc + digit_value c) (list_ascii_of_string s) acc,
       (n + String.length s)%nat).
Proof.
  induction s as [|c s IH]; simpl; intros H acc n.
  - by rewrite Nat.add_0_r.
  - apply andb_true_iff in H as [Hc Hs]. rewrite Hc, (IH Hs).
    by rewrite Nat.add_succ_r.
Qed.

Lemma read_digits_count s acc n : (n <= (read_digits s acc n).2)%nat.
Proof.
  revert acc n. induction s as [|c s IH]; simpl; intros acc n; [done |].
  destruct (is_digit c); [| done].
  specialize (IH (10 * acc + digit_value c) (S n)). lia.
Qed.

Lemma read_digits_none s acc n :
  (read_digits s acc n).2 = n <-> is_digit (char_at s 0) = false.
Proof.
  destruct s as [|c s]; [done |]. unfold char_at. simpl.
  destruct (is_digit c); [| done].
  pose proof (read_digits_count s (10 * acc + digit_value c) (S n)).
  split; [lia | done].
Qed.

Lemma char_at_advance s : char_at (advance 1 s) 0 = char_at s 1.
Proof. by destruct s. Qed.

Lemma from_chars_invalid_argument T s value :
  ec (from_chars T s value).2 = invalid_argument <-> begins_with_number T s = false.
Proof.
  unfold from_chars, begins_with_number.
  destruct (is_signed T && Ascii.eqb (char_at s 0) dash);
    [rewrite <- char_at_advance |];
    match goal with
    | |- context [read_digits ?b 0 0] =>
        pose proof (read_digits_none b 0 0%nat) as Hnone;
        destruct (read_digits b 0 0) as [magnitude n]; simpl in Hnone
    end;
    (destruct (Nat.eqb_spec n 0) as [->|Hn];
     [ simpl; split; [intros _; by apply Hnone | done]
     | split;
       [ match goal with
         | |- context [representable T ?z] => by destruct (representable T z)
         end
       | intros H; apply Hnone in H; done ] ]).
Qed.

Lemma unsigned_number_read_digits s z :
  unsigned_number s = Some z ->
  read_digits s 0 0 = (z, String.length s) /\ String.length s <> 0%nat.
Proof.
  destruct s as [|c s]; [done |]. unfold unsigned_number.
  destruct (digits_only (String c s)) eqn:Hd; [| done].
  intros [= <-]. by rewrite (read_digits_digits_only _ Hd).
Qed.

Lemma from_chars_literal T s value z :
  literal_for T s = Some z ->
  from_chars T s value =
    if representable T z
    then (z, mk_from_chars_result (String.length s) errc_none)
    else (value, mk_from_chars_result (String.length s) result_out_of_range).
Proof.
  unfold literal_for, from_chars, base10_integer.
  destruct s as [|c s]; [by destruct (negb (is_signed T) && _) |].
  change (char_at (String c s) 0) with c.
  destruct (Ascii.eqb c dash) eqn:Hc.
  - destruct (is_signed T); simpl; [| done].
    destruct (unsigned_number s) as [m|] eqn:Hm; [| done].
    intros [= <-]. destruct (unsigned_number_read_digits _ _ Hm) as [-> Hlen].
    apply Nat.eqb_neq in Hlen. by rewrite Hlen.
  - rewrite andb_false_r. simpl negb. rewrite andb_false_r.
    intros Hm. destruct (unsigned_number_read_digits _ _ Hm) as [-> Hlen].
    apply Nat.eqb_neq in Hlen. by rewrite Hlen.
Qed.

Lemma as_integer_from_chars T p raw :
  as_string p = Return raw ->
  as_integer T p =
    if errc_eqb (ec (from_chars T raw 0).2) invalid_argument
    then Throw (Msg.InvalidNumericValue raw)
    else Return (from_chars T raw 0).1.
Proof.
  unfold as_integer. intros ->. simpl. by destruct (from_chars T raw 0).
Qed.


End FromChars.

(** What the test of [ec] does reject, and what it returns for a string
    that is a number as a whole. *)
Lemma as_integer_not_a_number (T : IntegerType) (p : ValueProxy) (raw : string) :
  as_string p = Return raw ->
  begins_with_number T raw = false ->
  as_integer T p = Throw (Msg.InvalidNumericValue raw).
Proof.
  intros Hraw Hnum. rewrite (as_integer_from_chars T p raw Hraw).
  apply (from_chars_invalid_argument T raw 0) in Hnum. by rewrite Hnum.
Qed.

Lemma as_integer_literal (T : IntegerType) (p : ValueProxy) (raw : string) (z : Z) :
  as_string p = Return raw ->
  literal_for T raw = Some z ->
  representable T z = true ->
  as_integer T p = Return z.
Proof.
  intros Hraw Hlit Hrep. rewrite (as_integer_from_chars T p raw Hraw).
  by rewrite (from_chars_literal _ _ _ _ Hlit), Hrep.
Qed.

Section Trailing.

Implicit Types (s number rest : string) (T : IntegerType).

Lemma read_digits_append s rest :
  digits_only s = true ->
  is_digit (char_at rest 0) = false ->
  forall acc n, read_digits (s +:+ rest) acc n = read_digits s acc n.
Proof.
  intros Hs Hrest. induction s as [|c s IH]; intros acc n.
  - change (EmptyString +:+ rest) with rest. destruct rest as [|c rest]; [done |].
    change (char_at (String c rest) 0) with c in Hrest. simpl. by rewrite Hrest.
  - rewrite append_String. simpl in Hs |- *.
    apply andb_true_iff in Hs as [Hc Hs]. rewrite Hc. by apply IH.
Qed.

Lemma unsigned_number_digits s z :
  unsigned_number s = Some z -> digits_only s = true /\ s <> EmptyString.
Proof.
  destruct s as [|c s]; [done |]. unfold unsigned_number.
  by destruct (digits_only (String c s)).
Qed.

(** The conversion stops at the first character that is not a digit: what
    comes after a number does not change its result, but for [ptr]. *)
Lemma from_chars_prefix T number rest value z :
  literal_for T number = Some z ->
  is_digit (char_at rest 0) = false ->
  ((from_chars T (number +:+ rest) value).1 = (from_chars T number value).1) /\
  ec (from_chars T (number +:+ rest) value).2 = ec (from_chars T number value).2.
Proof.
  unfold literal_for, from_chars, base10_integer. intros Hlit Hrest.
  destruct number as [|c number]; [by destruct (negb (is_signed T) && _) |].
  rewrite append_String.
  change (char_at (String c number) 0) with c in *.
  change (char_at (String c (number +:+ rest)) 0) with c.
  destruct (Ascii.eqb c dash) eqn:Hc.
  - destruct (is_signed T); simpl in Hlit |- *; [| done].
    destruct (unsigned_number number) as [m|] eqn:Hm; [| done].
    destruct (unsigned_number_digits _ _ Hm) as [Hd _].
    rewrite (read_digits_append _ _ Hd Hrest).
    destruct (read_digits number 0 0) as [magnitude n].
    destruct (n =? 0)%nat; [done |]. by destruct (representable T (- magnitude)).
  - rewrite !andb_false_r in Hlit |- *. cbv iota in Hlit.
    destruct (unsigned_number_digits _ _ Hlit) as [Hd _].
    change (String c (number +:+ rest)) with (String c number +:+ rest).
    rewrite (read_digits_append _ _ Hd Hrest).
    destruct (read_digits (String c number) 0 0) as [magnitude n].
    destruct (n =? 0)%nat; [done |]. by destruct (representable T magnitude).
Qed.

End Trailing.

(** Claim C6.  The code does not do what the claim says for a stored
    string that is a number followed by other characters: such a string
    is not a base-10 integer, and [as<Integer>()] does not throw for it
    but returns the number in front ([12] for [12abc]).  The result
    pointer of the conversion, which tells where it stopped, is not
    looked at. *)
Theorem as_integer_trailing_characters (T : IntegerType) (p : ValueProxy)
    (number rest : string) (z : Z) :
  as_string p = Return (number +:+ rest) ->
  literal_for T number = Some z ->
  representable T z = true ->
  is_digit (char_at rest 0) = false ->
  as_integer T p = Return z.
Proof.
  intros Hraw Hlit Hrep Hrest. rewrite (as_integer_from_chars T p _ Hraw).
  destruct (from_chars_prefix T number rest 0 z Hlit Hrest) as [Hvalue Hec].
  rewrite Hvalue, Hec, (from_chars_literal _ _ _ _ Hlit), Hrep. done.
Qed.

Lemma as_integer_trailing_characters_witness :
  as_integer int32_t (get (count_parser "12abc") (ByName "count")) = Return 12.
Proof.
  apply (as_integer_trailing_characters int32_t
           (get (count_parser "12abc") (ByName "count")) "12" "abc" 12);
    reflexivity.
Defined.

(** Claim C10, as amended.  For a key that exists with a string that is a
    base-10 integer in the form taken for the type (the minus sign only
    for a signed type) and that the type cannot represent,
    [as<Integer>()] does not throw and returns [0]. *)
Theorem as_integer_out_of_range (T : IntegerType) (p : ValueProxy) (raw : string) (z : Z) :
  as_string p = Return raw ->
  literal_for T raw = Some z ->
  representable T z = false ->
  as_integer T p = Return 0.
Proof.
  intros Hraw Hlit Hrep.
  rewrite (as_integer_from_chars T p raw Hraw).
  by rewrite (from_chars_literal _ _ _ _ Hlit), Hrep.
Qed.

Lemma as_integer_out_of_range_witness :
  as_integer int32_t (get (count_parser "-2147483649") (ByName "count")) = Return 0.
Proof.
  apply (as_integer_out_of_range int32_t
           (get (count_parser "-2147483649") (ByName "count"))
           "-2147483649" (-2147483649)); reflexivity.
Defined.

(** The claim C10 as it is written fails: [-1] is a base-10 integer that
    an unsigned 32-bit type cannot represent, and [as<Integer>()] throws
    for it. *)
Lemma as_integer_out_of_range_counterexample :
  ~ (forall (T : IntegerType) (p : ValueProxy) (raw : string) (z : Z),
       as_string p = Return raw ->
       base10_integer raw = Some z ->
       representable T z = false ->
       as_integer T p = Return 0).
Proof.
  intros H.
  specialize (H uint32_t (get (count_parser "-1") (ByName "count")) "-1" (-1)
                eq_refl eq_refl eq_refl).
  vm_compute in H. discriminate H.
Qed.

(** ** The defaulted accessor *)





Example as_or_after_parse :
  bind (parse (mkArgParser EmptyString
                 [mkOptionDef "count" "c" EmptyString true] ∅ [] [])
          ["prog"; "--count=abc"] true)
    (fun parsed => as_or (IntegerValue int32_t) (get parsed (ByName "count")) 7)
  = Throw (ArgParserException "abc is not a valid numeric value").
Proof. vm_compute. reflexivity. Qed.

(** ** Every token is taken once *)

Section Classes.

Local Open Scope nat_scope.
Local Open Scope list_scope.

Implicit Types (self parsed : ArgParser) (tokens rest : list string).
Implicit Types (classes : list token_class) (c : token_class) (accept : bool).









End Classes.




(** * Further properties of [parse] *)

Section Sequence.

Implicit Types (self parsed here : ArgParser) (token name value : string).
Implicit Types (rest tokens before after : list string) (accept : bool).

Lemma is_separator_Break accept self token rest :
  is_separator accept token = true <->
  parse_body accept self token rest = Break (insert_remaining self rest).
Proof.
  unfold is_separator, parse_body.
  destruct (Ascii.eqb (char_at token 0) dash); [| done].
  destruct (Ascii.eqb (char_at token 1) dash); simpl.
  - destruct (Ascii.eqb (char_at token 2) NUL && accept); [done |].
    split; [done |]. by repeat case_match.
  - split; [done |]. by repeat case_match.
Qed.

(** A turn that goes on does so whatever comes after the tokens it has
    looked at. *)
Lemma parse_body_Continue_rest accept self token rest rest' took self' :
  parse_body accept self token rest = Continue took self' ->
  rest = [] \/ next_is_value rest' = next_is_value rest ->
  parse_body accept self token rest' = Continue took self'.
Proof.
  intros Hbody [-> | Hnext].
  - revert Hbody. unfold parse_body. simpl next_is_value.
    destruct (Ascii.eqb (char_at token 0) dash); [| done].
    destruct (Ascii.eqb (char_at token 1) dash).
    + destruct (Ascii.eqb (char_at token 2) NUL && accept); [done |].
      destruct (find_full_name _ _) as [o|]; [| done].
      destruct (m_expect_value o); [| done].
      by destruct (strchr _ _) as [[? ?]|].
    + destruct (find_short_name _ _) as [o|]; [| done].
      by destruct (m_expect_value o).
  - rewrite <- Hbody. apply parse_body_rest; [done | by rewrite Hbody].
Qed.

Lemma parse_loop_arrives_app accept after (n : nat) :
  forall self before parsed,
    (length before <= n)%nat ->
    Forall (fun token => is_separator accept token = false) before ->
    parse_loop accept self before = Return parsed ->
    arrives accept self (before ++ after) parsed after.
Proof.
  induction n as [|n IH]; intros self before parsed Hlen Hsep Hloop.
  - destruct before; [| simpl in Hlen; lia].
    injection Hloop as <-. apply arrives_here.
  - destruct before as [|token rest]; [injection Hloop as <-; apply arrives_here |].
    simpl in Hloop, Hlen. apply Forall_cons in Hsep as [Hne Hsep].
    destruct (parse_body accept self token rest) as [[|] self' | self' | e] eqn:Hbody;
      [| | | done].
    + destruct (parse_body_took_next _ _ _ _ _ Hbody) as (_ & value & rest' & -> & Hv).
      simpl. apply arrives_skip with self'.
      { eapply parse_body_Continue_rest; [exact Hbody | by right]. }
      apply Forall_cons in Hsep as [_ Hsep].
      apply IH; [simpl in Hlen; lia | done ..].
    + simpl. apply arrives_next with self'.
      * eapply parse_body_Continue_rest; [exact Hbody |].
        destruct rest; [by left | by right].
      * apply IH; [lia | done ..].
    + apply parse_body_Break in Hbody as (H0 & H1 & H2 & -> & _).
      unfold is_separator in Hne. by rewrite H0, H1, H2 in Hne.
Qed.

Lemma parse_loop_options accept (n : nat) :
  forall self tokens parsed,
    (length tokens <= n)%nat ->
    parse_loop accept self tokens = Return parsed ->
    m_available_options parsed = m_available_options self /\
    m_executable_path parsed = m_executable_path self.
Proof.
  induction n as [|n IH]; intros self tokens parsed Hlen Hloop.
  - destruct tokens; [| simpl in Hlen; lia]. by injection Hloop as <-.
  - destruct tokens as [|token rest]; [by injection Hloop as <- |].
    simpl in Hloop, Hlen.
    destruct (parse_body accept self token rest) as [took self' | self' | e] eqn:Hbody;
      [| | done].
    + apply parse_body_options in Hbody as (Ho & He & _). rewrite <- Ho, <- He.
      destruct took.
      * destruct rest as [|value rest']; [by injection Hloop as <- |].
        apply (IH _ rest'); [simpl in Hlen; lia | done].
      * apply (IH _ rest); [lia | done].
    + injection Hloop as <-. by apply parse_body_Break in Hbody as (_ & _ & _ & _ & ->).
Qed.

End Sequence.

(** X1.  A successful [parse] leaves the definitions as they were and
    stores [argv[0]] as the executable path; a second [parse] on the
    parser it returned gives what it gives on the first parser: nothing
    of the first call is left. *)
Theorem parse_replaces_previous (self : ArgParser) (argv : list string) (accept : bool)
    (parsed : ArgParser) :
  parse self argv accept = Return parsed ->
  m_available_options parsed = m_available_options self /\
  Some (getExecutablePath parsed) = argv !! 0%nat /\
  forall argv' accept', parse parsed argv' accept' = parse self argv' accept'.
Proof.
  destruct argv as [|executable_path tokens]; [done |]. unfold parse at 1.
  intros Hloop.
  destruct (parse_loop_options accept (length tokens) _ _ _ (Nat.le_refl _) Hloop)
    as [Ho He].
  simpl in Ho, He. split; [done |]. split; [by rewrite <- He |].
  intros [|executable_path' tokens'] accept'; [done |].
  unfold parse, reset. by rewrite Ho.
Qed.

Lemma parse_replaces_previous_witness :
  parse (mkArgParser "prog" demo_options (<["verbose" := EmptyString]> ∅) ["file1"] [])
    ["tool"; "a"] true
  = parse (mkArgParser EmptyString demo_options ∅ [] []) ["tool"; "a"] true.
Proof.
  apply (parse_replaces_previous (mkArgParser EmptyString demo_options ∅ [] [])
           ["prog"; "-v"; "file1"] true
           (mkArgParser "prog" demo_options (<["verbose" := EmptyString]> ∅) ["file1"] [])
           eq_refl).
Defined.

(** X2.  When the tokens [before] parse without an error and none of them
    makes the loop [break], the parse of a longer vector is the loop over
    the added tokens, started with the parser the tokens [before] gave. *)
Theorem parse_continues (self : ArgParser) (executable_path : string)
    (before after : list string) (accept : bool) (parsed : ArgParser) :
  Forall (fun token => is_separator accept token = false) before ->
  parse self (executable_path :: before) accept = Return parsed ->
  parse self (executable_path :: before ++ after) accept
    = parse_loop accept parsed after.
Proof.
  unfold parse. intros Hsep Hloop.
  apply arrives_parse_loop.
  by apply (parse_loop_arrives_app accept after (length before)).
Qed.

Lemma parse_continues_witness :
  parse (mkArgParser EmptyString demo_options ∅ [] [])
    ("prog" :: ["-o"; "a.txt"] ++ ["file1"; "-v"]) true
  = parse_loop true
      (mkArgParser "prog" demo_options (<["output" := "a.txt"]> ∅) [] [])
      ["file1"; "-v"].
Proof.
  refine (parse_continues (mkArgParser EmptyString demo_options ∅ [] []) "prog"
            ["-o"; "a.txt"] ["file1"; "-v"] true
            (mkArgParser "prog" demo_options (<["output" := "a.txt"]> ∅) [] []) _ _).
  - repeat constructor.
  - vm_compute. reflexivity.
Defined.

Section Turns.

Implicit Types (self parsed here : ArgParser) (token name value : string).
Implicit Types (rest tokens before after : list string) (accept : bool).

(** A property the turns of the loop keep holds of the parser the loop
    returns. *)
Lemma parse_loop_invariant (P : ArgParser -> Prop) accept :
  (forall self token rest took self',
     P self -> parse_body accept self token rest = Continue took self' -> P self') ->
  (forall self token rest self',
     P self -> parse_body accept self token rest = Break self' -> P self') ->
  forall (n : nat) self tokens parsed,
    (length tokens <= n)%nat ->
    P self -> parse_loop accept self tokens = Return parsed -> P parsed.
Proof.
  intros Hgo Hbreak. induction n as [|n IH]; intros self tokens parsed Hlen HP Hloop.
  - destruct tokens; [| simpl in Hlen; lia]. by injection Hloop as <-.
  - destruct tokens as [|token rest]; [by injection Hloop as <- |].
    simpl in Hloop, Hlen.
    destruct (parse_body accept self token rest) as [took self' | self' | e] eqn:Hbody;
      [| | done].
    + pose proof (Hgo _ _ _ _ _ HP Hbody) as HP'. destruct took.
      * destruct rest as [|value rest']; [by injection Hloop as <- |].
        apply (IH self' rest'); [simpl in Hlen; lia | done ..].
      * apply (IH self' rest); [lia | done ..].
    + injection Hloop as <-. by eapply Hbreak.
Qed.

(** What a turn that goes on does with the option table. *)
Lemma parse_body_table accept self token rest took self' :
  parse_body accept self token rest = Continue took self' ->
  m_options self' = m_options self \/
  exists option value,
    In option (m_available_options self) /\
    m_options self' = <[m_full_name option := value]> (m_options self).
Proof.
  unfold parse_body.
  destruct (Ascii.eqb (char_at token 0) dash); [| intros [= <- <-]; by left].
  destruct (Ascii.eqb (char_at token 1) dash).
  - destruct (Ascii.eqb (char_at token 2) NUL && accept); [done |].
    destruct (find_full_name _ _) as [o|] eqn:Hfind; [| done].
    apply List.find_some in Hfind as [Hin _].
    destruct (m_expect_value o); [destruct (strchr _ _) as [[? ?]|];
      [| destruct (next_is_value rest); [| done]] |];
      intros [= <- <-]; right; by eexists _, _.
  - destruct (find_short_name _ _) as [o|] eqn:Hfind; [| done].
    apply List.find_some in Hfind as [Hin _].
    destruct (m_expect_value o); [destruct (next_is_value rest); [| done] |];
      intros [= <- <-]; right; by eexists _, _.
Qed.


Lemma parse_body_attached_form accept self name value rest :
  char_at name 0 <> NUL ->
  occurs equals name = false ->
  parse_body accept self ("--" +:+ name +:+ "=" +:+ value) rest =
    match find_full_name (m_available_options self) name with
    | None => Raise (Msg.UnrecognizedOption name)
    | Some option =>
        Continue false
          (set_option self (m_full_name option)
             (if m_expect_value option then value else EmptyString))
    end.
Proof.
  intros Hname Hocc. unfold parse_body.
  change (char_at ("--" +:+ name +:+ "=" +:+ value) 0) with dash.
  change (char_at ("--" +:+ name +:+ "=" +:+ value) 1) with dash.
  change (char_at ("--" +:+ name +:+ "=" +:+ value) 2)
    with (char_at (name +:+ "=" +:+ value) 0).
  change (advance 2 ("--" +:+ name +:+ "=" +:+ value)) with (name +:+ "=" +:+ value).
  change (Ascii.eqb dash dash) with true. cbv iota.
  rewrite char_at_append_0 by done. apply Ascii.eqb_neq in Hname.
  rewrite Hname. simpl andb. cbv iota.
  change ("=" +:+ value) with (String equals value).
  rewrite (strchr_append _ _ _ Hocc).
  destruct (find_full_name _ _) as [o|]; [| done]. by destruct (m_expect_value o).
Qed.


Lemma parse_body_plain accept self token rest :
  Ascii.eqb (char_at token 0) dash = false ->
  parse_body accept self token rest = Continue false (push_argument self token).
Proof. intros H. unfold parse_body. by rewrite H. Qed.

Lemma parse_loop_plain accept tokens :
  Forall (fun token => Ascii.eqb (char_at token 0) dash = false) tokens ->
  forall self,
    parse_loop accept self tokens =
      Return (mkArgParser (m_executable_path self) (m_available_options self)
                (m_options self) (m_arguments self ++ tokens)
                (m_remaining_arguments self)).
Proof.
  induction 1 as [|token rest Htoken _ IH]; intros self; simpl.
  - rewrite app_nil_r. by destruct self.
  - rewrite (parse_body_plain _ _ _ _ Htoken), IH. simpl.
    by rewrite <- app_assoc.
Qed.

End Turns.

(** X3.  A vector in which no token after the executable path begins
    with [-] parses to those tokens as the arguments, in their order, with
    an empty option table and no remaining arguments. *)
Theorem parse_plain_arguments (self : ArgParser) (executable_path : string)
    (tokens : list string) (accept : bool) :
  Forall (fun token => char_at token 0 <> dash) tokens ->
  parse self (executable_path :: tokens) accept
    = Return (mkArgParser executable_path (m_available_options self) ∅ tokens []).
Proof.
  intros H. unfold parse. rewrite parse_loop_plain; [done |].
  eapply Forall_impl; [exact H |]. intros token Ht. by apply Ascii.eqb_neq.
Qed.

Lemma parse_plain_arguments_witness :
  parse (mkArgParser EmptyString demo_options ∅ [] []) ["prog"; "a"; "b=c"; "d-"] false
  = Return (mkArgParser "prog" demo_options ∅ ["a"; "b=c"; "d-"] []).
Proof.
  apply (parse_plain_arguments (mkArgParser EmptyString demo_options ∅ [] [])
           "prog" ["a"; "b=c"; "d-"] false).
  repeat constructor; discriminate.
Defined.

(** X4.  Let a vector parse to [parsed] without a [break], and add the
    token [--name=value] at its end, for a definition with the full name
    [name] (not empty, no [=] in it).  The longer vector parses to
    [parsed] with [name] set anew: to [value] when the definition expects
    a value, whatever was stored for [name] before, and to the empty
    string when it does not, the attached value being dropped. *)
Theorem parse_option_again (self : ArgParser) (executable_path : string)
    (before : list string) (accept : bool) (parsed : ArgParser)
    (name value : string) (option : OptionDef) :
  Forall (fun token => is_separator accept token = false) before ->
  parse self (executable_path :: before) accept = Return parsed ->
  find_full_name (m_available_options self) name = Some option ->
  char_at name 0 <> NUL ->
  occurs equals name = false ->
  let stored_value := if m_expect_value option then value else EmptyString in
  parse self (executable_path :: before ++ ["--" +:+ name +:+ "=" +:+ value]) accept
    = Return (set_option parsed name stored_value)
  /\
  stored (parse self (executable_path :: before ++ ["--" +:+ name +:+ "=" +:+ value])
            accept) name = Some stored_value.
Proof.
  intros Hsep Hparse Hfind Hname Hocc stored_value.
  assert (Hgoal :
    parse self (executable_path :: before ++ ["--" +:+ name +:+ "=" +:+ value]) accept
      = Return (set_option parsed name stored_value)).
  { unfold parse in Hparse |- *.
    rewrite (arrives_parse_loop _ _ _ _ _
               (parse_loop_arrives_app accept _ (length before) _ _ _
                  (Nat.le_refl _) Hsep Hparse)).
    destruct (parse_loop_options _ (length before) _ _ _ (Nat.le_refl _) Hparse)
      as (Ho & _). simpl in Ho.
    simpl. rewrite parse_body_attached_form by done.
    rewrite Ho, Hfind. by rewrite (find_full_name_Some _ _ _ Hfind). }
  split; [exact Hgoal |]. rewrite Hgoal. simpl. apply lookup_insert_eq.
Qed.

Lemma parse_option_again_witness :
  parse (mkArgParser EmptyString demo_options ∅ [] [])
    ("prog" :: ["--output"; "a.txt"; "file1"] ++ ["--output=b.txt"]) true
  = Return (mkArgParser "prog" demo_options (<["output" := "b.txt"]> ∅) ["file1"] [])
  /\
  parse (mkArgParser EmptyString demo_options ∅ [] [])
    ("prog" :: [] ++ ["--verbose=yes"]) true
  = Return (mkArgParser "prog" demo_options (<["verbose" := EmptyString]> ∅) [] []).
Proof.
  split.
  - pose proof (proj1 (parse_option_again (mkArgParser EmptyString demo_options ∅ [] [])
             "prog" ["--output"; "a.txt"; "file1"] true
             (mkArgParser "prog" demo_options (<["output" := "a.txt"]> ∅) ["file1"] [])
             "output" "b.txt" (mkOptionDef "output" "o" EmptyString true)
             ltac:(repeat constructor) eq_refl eq_refl ltac:(discriminate) eq_refl))
      as H.
    etrans; [exact H |]. vm_compute. reflexivity.
  - exact (proj1 (parse_option_again (mkArgParser EmptyString demo_options ∅ [] [])
             "prog" [] true (mkArgParser "prog" demo_options ∅ [] [])
             "verbose" "yes" (mkOptionDef "verbose" "v" EmptyString false)
             ltac:(constructor) eq_refl eq_refl ltac:(discriminate) eq_refl)).
Defined.

(** X5.  With [accept_remaining_arguments] off a successful [parse]
    leaves the remaining arguments empty. *)
Theorem parse_without_remaining (self : ArgParser) (argv : list string)
    (parsed : ArgParser) :
  parse self argv false = Return parsed ->
  getRemainingArguments parsed = [].
Proof.
  destruct argv as [|executable_path tokens]; [done |]. unfold parse. intros Hloop.
  assert (Hsep : Forall (fun token => is_separator false token = false) tokens).
  { apply Forall_forall. intros token _. unfold is_separator. apply andb_false_r. }
  pose proof (parse_loop_arrives_app false [] (length tokens) _ _ _
                (Nat.le_refl _) Hsep Hloop) as Harr.
  unfold getRemainingArguments. by apply arrives_options in Harr as (_ & _ & ->).
Qed.

Lemma parse_without_remaining_witness :
  getRemainingArguments
    (mkArgParser "prog" demo_options (<["verbose" := EmptyString]> ∅) ["a"] []) = [].
Proof.
  apply (parse_without_remaining (mkArgParser EmptyString demo_options ∅ [] [])
           ["prog"; "-v"; "a"]).
  vm_compute. reflexivity.
Defined.

(** X6.  When the loop arrives at a token that begins with [-] and no
    definition is found for it, [parse] throws "unrecognized option": for
    a token that begins with [--] and does not make the loop [break], with
    the text between [--] and the first [=] (the empty text for the token
    [--] itself when [accept_remaining_arguments] is off); for any other,
    with its second character. *)
Theorem parse_unrecognized (self : ArgParser) (executable_path : string)
    (tokens : list string) (accept : bool) (here : ArgParser) (token : string)
    (rest : list string) :
  arrives accept (reset self executable_path) tokens here (token :: rest) ->
  char_at token 0 = dash ->
  (char_at token 1 = dash ->
   is_separator accept token = false ->
   forall name,
     name = match strchr (advance 2 token) equals with
            | Some (before, _) => before
            | None => advance 2 token
            end ->
     find_full_name (m_available_options self) name = None ->
     parse self (executable_path :: tokens) accept = Throw (Msg.UnrecognizedOption name))
  /\
  (char_at token 1 <> dash ->
   find_short_name (m_available_options self) (char_at token 1) = None ->
   parse self (executable_path :: tokens) accept
     = Throw (Msg.UnrecognizedShortOption (char_at token 1))).
Proof.
  intros Harr H0. unfold parse. rewrite (arrives_parse_loop _ _ _ _ _ Harr).
  apply arrives_options in Harr as (Hopts & _ & _).
  cbn [reset m_available_options] in Hopts.
  cbn [parse_loop]. unfold parse_body, is_separator. rewrite H0, Hopts.
  change (Ascii.eqb dash dash) with true. cbv iota. split.
  - intros H1 Hsep name -> Hfind. rewrite H1 in Hsep |- *.
    change (Ascii.eqb dash dash) with true in *. cbn [andb] in Hsep.
    cbv iota. by rewrite Hsep, Hfind.
  - intros H1 Hfind. apply Ascii.eqb_neq in H1. by rewrite H1, Hfind.
Qed.

Lemma parse_unrecognized_witness :
  parse (mkArgParser EmptyString demo_options ∅ [] []) ["prog"; "a"; "--"; "b"] false
  = Throw (ArgParserException "unrecognized option '--'")
  /\
  parse (mkArgParser EmptyString demo_options ∅ [] []) ["prog"; "-x"] true
  = Throw (ArgParserException "unrecognized option '-x'").
Proof.
  split.
  - apply (proj1 (parse_unrecognized (mkArgParser EmptyString demo_options ∅ [] [])
             "prog" ["a"; "--"; "b"] false
             (mkArgParser "prog" demo_options ∅ ["a"] []) "--" ["b"]
             ltac:(eapply arrives_next; [reflexivity | apply arrives_here])
             eq_refl) eq_refl eq_refl EmptyString eq_refl eq_refl).
  - apply (proj2 (parse_unrecognized (mkArgParser EmptyString demo_options ∅ [] [])
             "prog" ["-x"] true (mkArgParser "prog" demo_options ∅ [] []) "-x" []
             (arrives_here _ _ _) eq_refl));
      [discriminate | reflexivity].
Defined.



Section Table.

Implicit Types (self parsed : ArgParser) (key : string).

Lemma registered_size options table :
  registered options table -> (size table <= length options)%nat.
Proof.
  intros Hreg. rewrite <- (length_map m_full_name options).
  rewrite <- length_map_to_list, <- (length_fmap fst).
  apply submseteq_length, NoDup_submseteq.
  - apply NoDup_fst_map_to_list.
  - intros key Hkey. apply list_elem_of_fmap in Hkey as [[k v] [-> Hkv]].
    apply elem_of_map_to_list in Hkv. simpl.
    destruct (Hreg k (mk_is_Some _ _ Hkv)) as (o & Hin & <-).
    apply list_elem_of_In. by apply in_map.
Qed.

Lemma parse_loop_registered accept self tokens parsed :
  registered (m_available_options self) (m_options self) ->
  parse_loop accept self tokens = Return parsed ->
  registered (m_available_options self) (m_options parsed).
Proof.
  intros Hreg Hloop.
  cut (m_available_options parsed = m_available_options self /\
       registered (m_available_options parsed) (m_options parsed)).
  { intros [<- H]. exact H. }
  refine (parse_loop_invariant
            (fun p => m_available_options p = m_available_options self /\
                      registered (m_available_options p) (m_options p))
            accept _ _ (length tokens) self tokens parsed (Nat.le_refl _) _ Hloop).
  - intros s token rest took s' [Ho Hr] Hbody.
    destruct (parse_body_options _ _ _ _ _ _ Hbody) as (Ho' & _ & _).
    rewrite Ho'. split; [done |].
    destruct (parse_body_table _ _ _ _ _ _ Hbody) as [-> | (o & v & Hin & ->)];
      [done |].
    intros key Hkey. destruct (decide (m_full_name o = key)) as [<- | Hne].
    + by exists o.
    + rewrite lookup_insert_ne in Hkey by done. by apply Hr.
  - intros s token rest s' [Ho Hr] Hbody.
    by apply parse_body_Break in Hbody as (_ & _ & _ & _ & ->).
  - done.
Qed.

End Table.

(** X8.  After a successful [parse] every key of the option table is the
    full name of one of the definitions, so [getOptionCount()] is at most
    the number of definitions, however often options are given. *)
Theorem parse_options_registered (self : ArgParser) (argv : list string) (accept : bool)
    (parsed : ArgParser) :
  parse self argv accept = Return parsed ->
  (forall key, is_Some (m_options parsed !! key) ->
     exists option, In option (m_available_options self) /\ m_full_name option = key)
  /\
  (getOptionCount parsed <= length (m_available_options self))%nat.
Proof.
  destruct argv as [|executable_path tokens]; [done |]. unfold parse. intros Hloop.
  assert (Hreg : registered (m_available_options self) (m_options parsed)).
  { apply (parse_loop_registered accept (reset self executable_path) tokens);
      [| done].
    intros key [v Hv]. cbn [reset m_options] in Hv. by rewrite lookup_empty in Hv. }
  split; [exact Hreg |]. by apply registered_size.
Qed.

Lemma parse_options_registered_witness :
  (getOptionCount
     (mkArgParser "prog" demo_options (<["verbose" := EmptyString]> ∅) [] [])
   <= 2)%nat.
Proof.
  apply (parse_options_registered (mkArgParser EmptyString demo_options ∅ [] [])
           ["prog"; "-v"; "--verbose"; "-v"] true
           (mkArgParser "prog" demo_options (<["verbose" := EmptyString]> ∅) [] [])).
  vm_compute. reflexivity.
Defined.

(** * Further properties of the value proxy *)





Section Decimal.

Implicit Types (s : string) (x : N) (z : Z) (T : IntegerType).

Lemma pretty_N_char_digit x :
  (x < 10)%N ->
  is_digit (pretty_N_char x) = true /\ digit_value (pretty_N_char x) = Z.of_N x.
Proof.
  intros Hx.
  assert (x = 0 \/ x = 1 \/ x = 2 \/ x = 3 \/ x = 4 \/ x = 5 \/ x = 6
          \/ x = 7 \/ x = 8 \/ x = 9)%N as Hcases by lia.
  repeat destruct Hcases as [-> | Hcases]; try subst x; by vm_compute.
Qed.

(** The digits [pretty] puts in front of [s] are digits, and they are read
    back as the number they were made from. *)
Lemma pretty_N_go_read x :
  forall s,
    digits_only s = true ->
    (0 < x)%N \/ s <> EmptyString ->
    digits_only (pretty_N_go x s) = true /\
    pretty_N_go x s <> EmptyString /\
    exists k : Z,
      0 <= k /\
      forall acc,
        fold_left (fun acc c => 10 * acc + digit_value c)
          (list_ascii_of_string (pretty_N_go x s)) acc
        = fold_left (fun acc c => 10 * acc + digit_value c)
            (list_ascii_of_string s) (acc * 10 ^ k + Z.of_N x).
Proof.
  induction (N.lt_wf_0 x) as [x _ IH]. intros s Hs Hne.
  assert (x = 0 \/ 0 < x)%N as [-> | Hx] by lia.
  - rewrite pretty_N_go_0. split; [done |]. split; [by destruct Hne as [? | ?]; [lia |] |].
    exists 0. split; [done |]. intros acc. f_equal. simpl. lia.
  - rewrite pretty_N_go_step by done.
    destruct (pretty_N_char_digit (x `mod` 10)) as [Hd Hv];
      [by apply N.mod_lt |].
    destruct (IH (x `div` 10)%N ltac:(by apply N.div_lt)
                (String (pretty_N_char (x `mod` 10)) s))
      as (Hdigits & Hnonempty & k & Hk & Hfold).
    { simpl. by rewrite Hd, Hs. }
    { by right. }
    split; [done |]. split; [done |].
    exists (k + 1). split; [lia |]. intros acc. rewrite Hfold. simpl. f_equal.
    rewrite Hv, Z.pow_add_r, Z.pow_1_r by lia.
    pose proof (N.div_mod x 10 ltac:(done)) as Hdm.
    apply (f_equal Z.of_N) in Hdm. rewrite N2Z.inj_add, N2Z.inj_mul in Hdm.
    change (Z.of_N 10) with 10 in Hdm. lia.
Qed.

Lemma unsigned_number_pretty (q : positive) :
  unsigned_number (pretty_N_go (N.pos q) EmptyString) = Some (Z.pos q)
  /\ Ascii.eqb (char_at (pretty_N_go (N.pos q) EmptyString) 0) dash = false.
Proof.
  destruct (pretty_N_go_read (N.pos q) EmptyString eq_refl ltac:(left; lia))
    as (Hdigits & Hnonempty & k & _ & Hfold).
  unfold unsigned_number, number_of. rewrite Hfold.
  destruct (pretty_N_go (N.pos q) EmptyString) as [|c s] eqn:E; [done |].
  rewrite Hdigits. split; [simpl; f_equal; lia |].
  change (char_at (String c s) 0) with c.
  simpl in Hdigits. apply andb_true_iff in Hdigits as [Hc _].
  destruct (Ascii.eqb_spec c dash) as [-> |]; [discriminate Hc | done].
Qed.

Lemma pretty_Z_digits (q : positive) :
  pretty (Z.pos q) = pretty_N_go (N.pos q) EmptyString /\
  pretty (Z.neg q) = "-" +:+ pretty_N_go (N.pos q) EmptyString.
Proof.
  unfold pretty, pretty_Z, pretty, pretty_positive, pretty, pretty_N.
  by destruct (decide (N.pos q = 0%N)).
Qed.

Lemma literal_for_pretty T z :
  representable T z = true -> literal_for T (pretty z) = Some z.
Proof.
  intros Hrep. unfold literal_for.
  destruct z as [| q | q].
  - by destruct (is_signed T).
  - rewrite (proj1 (pretty_Z_digits q)).
    destruct (unsigned_number_pretty q) as [Hnum Hdash].
    rewrite Hdash, andb_false_r. unfold base10_integer.
    destruct (pretty_N_go (N.pos q) EmptyString) as [|c s] eqn:E; [done |].
    change (char_at (String c s) 0) with c in Hdash. by rewrite Hdash.
  - assert (is_signed T = true) as Hsigned.
    { unfold representable, min_value in Hrep. destruct (is_signed T); [done |].
      apply andb_true_iff in Hrep as [Hmin _]. apply Z.leb_le in Hmin. lia. }
    rewrite Hsigned, (proj2 (pretty_Z_digits q)). simpl negb. cbv iota.
    destruct (unsigned_number_pretty q) as [Hnum _].
    change (base10_integer ("-" +:+ pretty_N_go (N.pos q) EmptyString))
      with (Z.opp <$> unsigned_number (pretty_N_go (N.pos q) EmptyString)).
    by rewrite Hnum.
Qed.

End Decimal.

(** X10.  An integer the requested type can represent, written in decimal
    (a minus sign and no other sign, no leading zeros), is read back by
    [as<Integer>()] as itself. *)
Theorem as_integer_decimal (T : IntegerType) (p : ValueProxy) (z : Z) :
  as_string p = Return (pretty z) ->
  representable T z = true ->
  as_integer T p = Return z.
Proof.
  intros Hraw Hrep. rewrite (as_integer_from_chars T p _ Hraw).
  by rewrite (from_chars_literal T _ 0 z (literal_for_pretty T z Hrep)), Hrep.
Qed.

Lemma as_integer_decimal_witness :
  as_integer int32_t (get (count_parser "-2147483648") (ByName "count"))
  = Return (-2147483648).
Proof.
  apply (as_integer_decimal int32_t (get (count_parser "-2147483648") (ByName "count"))
           (-2147483648)); reflexivity.
Defined.



(** * Further properties of the constructor *)

Section FirstPair.

Implicit Types (options rest : list OptionDef) (c : ascii).

Lemma find_short_name_first options c duplicate :
  find_short_name options c = Some duplicate ->
  exists k : nat,
    options !! k = Some duplicate /\ m_short_name duplicate = c /\
    forall (k' : nat) x, (k' < k)%nat -> options !! k' = Some x -> m_short_name x <> c.
Proof.
  unfold find_short_name. induction options as [|o options IH]; simpl; [done |].
  destruct (Ascii.eqb_spec (m_short_name o) c) as [Heq | Hne].
  - intros [= <-]. exists 0%nat. repeat split; [done |]. intros k' x Hk. lia.
  - intros H. destruct (IH H) as (k & Hk & Hc & Hmin).
    exists (S k). repeat split; [done ..|].
    intros [|k'] x Hlt; simpl; [by intros [= <-] |].
    apply Hmin. lia.
Qed.

Lemma find_duplicate_first options e :
  find_duplicate options = Some e ->
  exists (i j : nat) first second,
    (i < j)%nat /\ options !! i = Some first /\ options !! j = Some second /\
    m_short_name first = m_short_name second /\
    e = Msg.ConfigurationError (m_short_name first) (m_full_name first)
          (m_full_name second) /\
    forall (i' j' : nat) a b,
      (i' < j')%nat -> options !! i' = Some a -> options !! j' = Some b ->
      m_short_name a = m_short_name b ->
      (i < i')%nat \/ (i = i' /\ (j <= j')%nat).
Proof.
  induction options as [|o options IH]; simpl; [done |].
  destruct (find_short_name options (m_short_name o)) as [d|] eqn:Hfind.
  - intros [= <-]. apply find_short_name_first in Hfind as (k & Hk & Hd & Hmin).
    exists 0%nat, (S k), o, d. repeat split; [lia | done ..|].
    intros [|i'] [|j'] a b Hlt Ha Hb Hab; try lia; simpl in Ha, Hb.
    right. split; [done |]. injection Ha as <-.
    destruct (decide (j' < k)%nat) as [Hjk |]; [| lia].
    by destruct (Hmin j' b Hjk Hb).
  - intros He.
    destruct (IH He) as (i & j & a & b & Hij & Ha & Hb & Hab & -> & Hmin).
    exists (S i), (S j), a, b. repeat split; [lia | done ..|].
    intros [|i'] [|j'] x y Hlt Hx Hy Hxy; try lia; simpl in Hx, Hy.
    + injection Hx as <-. apply find_short_name_None in Hfind.
      destruct Hfind. rewrite Hxy. apply list_elem_of_fmap. exists y.
      split; [done |]. by eapply list_elem_of_lookup_2.
    + destruct (Hmin i' j' x y ltac:(lia) Hx Hy Hxy) as [? | [? ?]]; lia.
Qed.

End FirstPair.

(** X12.  When the constructor throws, the exception is a
    [std::runtime_error] and not an [ArgParserException], and it names the
    first pair of definitions that share a short name: the first
    definition that has a later one with its short name, and the first
    such later one. *)
Theorem ArgParser_new_first_pair (options : list OptionDef) (e : exn) :
  ArgParser_new options = Throw e ->
  (forall what, e <> ArgParserException what) /\
  exists (i j : nat) first second,
    (i < j)%nat /\ options !! i = Some first /\ options !! j = Some second /\
    m_short_name first = m_short_name second /\
    e = Msg.ConfigurationError (m_short_name first) (m_full_name first)
          (m_full_name second) /\
    forall (i' j' : nat) a b,
      (i' < j')%nat -> options !! i' = Some a -> options !! j' = Some b ->
      m_short_name a = m_short_name b ->
      (i < i')%nat \/ (i = i' /\ (j <= j')%nat).
Proof.
  unfold ArgParser_new.
  destruct (find_duplicate options) as [e'|] eqn:Hdup; [| done].
  intros [= <-].
  destruct (find_duplicate_first _ _ Hdup) as (i & j & a & b & H).
  split; [| by exists i, j, a, b].
  destruct H as (_ & _ & _ & _ & -> & _). done.
Qed.

Lemma ArgParser_new_first_pair_witness :
  Msg.ConfigurationError "v" "verbose" "version" <> ArgParserException "duplicate"
  /\
  exists (i j : nat) first second,
    (i < j)%nat /\ clash_options !! i = Some first /\ clash_options !! j = Some second /\
    m_short_name first = m_short_name second /\
    Msg.ConfigurationError "v" "verbose" "version"
      = Msg.ConfigurationError (m_short_name first) (m_full_name first)
          (m_full_name second).
Proof.
  destruct (ArgParser_new_first_pair clash_options
              (Msg.ConfigurationError "v" "verbose" "version") eq_refl)
    as (Hclass & i & j & first & second & Hij & Hi & Hj & Hshort & He & _).
  split; [apply Hclass |]. by exists i, j, first, second.
Defined.

(** * Properties of [printAvailableOptions] *)

Section Listing.

Implicit Types (stream : ostream) (option : OptionDef) (options : list OptionDef).
Implicit Types (s t : string).

Local Open Scope nat_scope.

Lemma append_nil_r s : s +:+ EmptyString = s.
Proof. induction s as [|x s IH]; [done |]. by rewrite append_String, IH. Qed.

Lemma length_append s t : String.length (s +:+ t) = String.length s + String.length t.
Proof. induction s as [|x s IH]; [done |]. rewrite append_String. simpl. by rewrite IH. Qed.

Lemma length_fill_string n c : String.length (fill_string n c) = n.
Proof. induction n as [|n IH]; simpl; [done | by rewrite IH]. Qed.

Lemma length_option_column option :
  String.length (option_column option) = calc_optlen option.
Proof.
  unfold option_column, calc_optlen. rewrite length_append.
  by destruct (m_expect_value option).
Qed.

(** Without a field width a text is written as it is. *)
Lemma put_plain stream s :
  field_width stream = 0 ->
  put stream s = mk_ostream (written stream +:+ s) 0 (fill_char stream) (adjust_left stream).
Proof.
  intros Hw. unfold put. rewrite Hw. simpl.
  destruct (adjust_left stream); [by rewrite append_nil_r | done].
Qed.

(** With the adjustment [left] the padding comes after the text. *)
Lemma put_left w n c s :
  put (mk_ostream w n c true) s
  = mk_ostream (w +:+ s +:+ fill_string (n - String.length s) c) 0 c true.
Proof. reflexivity. Qed.

Lemma fold_largest (rest : list OptionDef) :
  forall first,
    let largest :=
      fold_left (fun largest x =>
                   if calc_optlen largest <? calc_optlen x then x else largest)
        rest first in
    (largest = first \/ In largest rest) /\
    calc_optlen first <= calc_optlen largest /\
    forall option, In option rest -> calc_optlen option <= calc_optlen largest.
Proof.
  induction rest as [|x rest IH]; intros first; cbn [fold_left].
  - split; [by left |]. split; [done |]. by intros option [].
  - destruct (IH (if calc_optlen first <? calc_optlen x then x else first))
      as (Hin & Hfirst & Hrest).
    revert Hin Hfirst Hrest.
    generalize (fold_left (fun largest x0 =>
                   if calc_optlen largest <? calc_optlen x0 then x0 else largest)
                  rest (if calc_optlen first <? calc_optlen x then x else first)).
    intros m Hin Hfirst Hrest. cbn zeta.
    destruct (Nat.ltb_spec (calc_optlen first) (calc_optlen x)) as [Hlt | Hge].
    + split; [destruct Hin as [-> | Hin]; right; [by left | by right] |].
      split; [lia |]. intros option [<- | Ho]; [done | by apply Hrest].
    + split; [destruct Hin as [-> | Hin]; [by left | right; by right] |].
      split; [done |]. intros option [<- | Ho]; [lia | by apply Hrest].
Qed.

Lemma max_element_largest options largest :
  max_element (fun a b => calc_optlen a <? calc_optlen b) options = Some largest ->
  In largest options /\
  forall option, In option options -> calc_optlen option <= calc_optlen largest.
Proof.
  destruct options as [|first rest]; [done |]. unfold max_element. intros [= <-].
  destruct (fold_largest rest first) as (Hin & Hfirst & Hrest).
  split.
  - destruct Hin as [-> | Hin]; [by left | by right].
  - intros option [<- | Ho]; [done | by apply Hrest].
Qed.

(** One turn of the loop writes the line of the option. *)
Lemma print_option_line column stream option :
  field_width stream = 0 ->
  calc_optlen option <= column ->
  print_option column stream option
  = mk_ostream (written stream +:+ option_line (fill_char stream) column option)
      0 (fill_char stream) true.
Proof.
  intros Hw Hle. unfold print_option.
  rewrite (put_plain stream) by done.
  rewrite !put_plain by done. cbn [written fill_char adjust_left].
  unfold std_left. cbn [written fill_char adjust_left field_width].
  unfold option_line, option_column, calc_optlen in *.
  destruct (m_expect_value option).
  - rewrite (put_plain (mk_ostream _ 0 _ true)) by done.
    cbn [written fill_char adjust_left]. unfold setw.
    cbn [written fill_char adjust_left]. rewrite put_left.
    rewrite !put_plain by done. unfold endl.
    cbn [written fill_char adjust_left field_width].
    rewrite length_append. change (String.length "=<value>") with 8.
    replace (column - String.length (m_full_name option) - 8)
      with (column - (String.length (m_full_name option) + 8)) by lia.
    by rewrite !append_assoc.
  - unfold setw. cbn [written fill_char adjust_left]. rewrite put_left.
    rewrite !put_plain by done. unfold endl.
    cbn [written fill_char adjust_left field_width].
    rewrite !append_nil_r. by rewrite !append_assoc.
Qed.

Lemma print_options_lines column options :
  forall stream,
    field_width stream = 0 ->
    (forall option, In option options -> calc_optlen option <= column) ->
    fold_left (print_option column) options stream
    = mk_ostream
        (written stream
           +:+ concat_lines (map (option_line (fill_char stream) column) options))
        0 (fill_char stream)
        (match options with [] => adjust_left stream | _ => true end).
Proof.
  induction options as [|option options IH]; intros stream Hw Hle.
  - simpl. rewrite append_nil_r. destruct stream. simpl in Hw. by rewrite Hw.
  - cbn [fold_left]. rewrite print_option_line by (try done; apply Hle; by left).
    rewrite IH by (try done; intros o Ho; apply Hle; by right).
    cbn [written fill_char adjust_left map concat_lines].
    rewrite append_assoc. by destruct options.
Qed.

End Listing.

(** X13.  On a stream without a pending field width, and for a parser
    with at least one definition, [printAvailableOptions] writes one line
    for each definition, in their order: [-c, --name] (with [=<value>]
    after the name of a definition that expects a value), padded with the
    fill character to one width for all lines, then [ - ], the
    description and a new line.  The width is the longest of the names
    (with their [=<value>]), so the descriptions begin in the same
    column; the stream is left with the adjustment [left]. *)
Theorem printAvailableOptions_lines (self : ArgParser) (stream : ostream) :
  field_width stream = 0%nat ->
  m_available_options self <> [] ->
  exists column : nat,
    printAvailableOptions self stream
      = Return (mk_ostream
                  (written stream
                     +:+ concat_lines
                           (map (option_line (fill_char stream) column)
                              (m_available_options self)))
                  0 (fill_char stream) true)
    /\
    (exists option,
       In option (m_available_options self) /\
       String.length (option_column option) = column)
    /\
    (forall option,
       In option (m_available_options self) ->
       String.length
         (option_column option
            +:+ fill_string (column - String.length (option_column option))
                  (fill_char stream)) = column).
Proof.
  intros Hw Hne. unfold printAvailableOptions.
  destruct (max_element _ (m_available_options self)) as [largest|] eqn:Hmax.
  - apply max_element_largest in Hmax as [Hin Hle].
    exists (calc_optlen largest). split; [| split].
    + rewrite print_options_lines by done.
      by destruct (m_available_options self).
    + exists largest. split; [done | apply length_option_column].
    + intros option Ho. rewrite length_append, length_fill_string.
      rewrite length_option_column. specialize (Hle option Ho). lia.
  - by destruct (m_available_options self).
Qed.

Lemma printAvailableOptions_lines_witness :
  exists column : nat,
    printAvailableOptions (mkArgParser EmptyString demo_options ∅ [] [])
      (mk_ostream "usage:" 0 " " false)
    = Return (mk_ostream
                ("usage:" +:+ concat_lines (map (option_line " " column) demo_options))
                0 " " true).
Proof.
  destruct (printAvailableOptions_lines (mkArgParser EmptyString demo_options ∅ [] [])
              (mk_ostream "usage:" 0 " " false) eq_refl ltac:(discriminate))
    as (column & Hprint & _ & _).
  exists column. exact Hprint.
Defined.

Example printAvailableOptions_demo :
  printAvailableOptions
    (mkArgParser EmptyString
       [ mkOptionDef "verbose" "v" "more output" false;
         mkOptionDef "output" "o" "output file" true ] ∅ [] [])
    (mk_ostream "usage:" 0 " " false)
  = Return (mk_ostream
              ("usage:" +:+ "-v, --verbose        - more output" +:+ newline
                 +:+ "-o, --output=<value> - output file" +:+ newline)
              0 " " true).
Proof. vm_compute. reflexivity. Qed.

(** * What is thrown, and what the arguments are made of *)

Section Thrown.

Implicit Types (self parsed : ArgParser) (token : string) (e : exn).
Implicit Types (rest tokens : list string) (accept : bool).

Lemma parse_body_Raise accept self token rest e :
  parse_body accept self token rest = Raise e -> exists what, e = ArgParserException what.
Proof. body_cases; try done; intros [= <-]; by eexists. Qed.

Lemma parse_loop_Throw accept (n : nat) :
  forall self tokens,
    (length tokens <= n)%nat ->
    parse_loop accept self tokens <> Undefined /\
    forall e, parse_loop accept self tokens = Throw e ->
              exists what, e = ArgParserException what.
Proof.
  induction n as [|n IH]; intros self tokens Hlen.
  - destruct tokens; [done | simpl in Hlen; lia].
  - destruct tokens as [|token rest]; [done |]. simpl in Hlen. cbn [parse_loop].
    destruct (parse_body accept self token rest) as [[|] self' | self' | e'] eqn:Hbody.
    + destruct rest as [|value rest']; [done |].
      apply IH. simpl in Hlen. lia.
    + apply IH. lia.
    + done.
    + split; [done |]. intros e [= <-]. by eapply parse_body_Raise.
Qed.

(** What a turn that goes on does with the arguments. *)
Lemma parse_body_arguments accept self token rest took self' :
  parse_body accept self token rest = Continue took self' ->
  (Ascii.eqb (char_at token 0) dash = false /\ took = false /\
   m_arguments self' = m_arguments self ++ [token])
  \/ m_arguments self' = m_arguments self.
Proof.
  unfold parse_body. destruct (Ascii.eqb (char_at token 0) dash).
  - intros H. right. revert H.
    repeat match goal with
           | |- context [if ?b then _ else _] => destruct b eqn:?
           | |- context [match ?x with _ => _ end] => destruct x eqn:?
           end; try done; by intros [= <- <-].
  - intros [= <- <-]. by left.
Qed.

Lemma parse_loop_arguments accept (n : nat) :
  forall self tokens parsed,
    (length tokens <= n)%nat ->
    parse_loop accept self tokens = Return parsed ->
    exists arguments remaining,
      m_arguments parsed = m_arguments self ++ arguments /\
      m_remaining_arguments parsed = remaining ++ m_remaining_arguments self /\
      sublist arguments tokens /\
      Forall (fun token => char_at token 0 <> dash) arguments /\
      remaining `suffix_of` tokens.
Proof.
  induction n as [|n IH]; intros self tokens parsed Hlen Hloop.
  - destruct tokens; [| simpl in Hlen; lia]. injection Hloop as <-.
    exists [], []. by rewrite app_nil_r.
  - destruct tokens as [|token rest].
    { injection Hloop as <-. exists [], []. by rewrite app_nil_r. }
    simpl in Hloop, Hlen.
    destruct (parse_body accept self token rest) as [took self' | self' | e] eqn:Hbody;
      [| | done].
    + destruct (parse_body_options _ _ _ _ _ _ Hbody) as (_ & _ & Hrem).
      destruct (parse_body_arguments _ _ _ _ _ _ Hbody) as [(Hplain & -> & Hargs) | Hargs].
      * destruct (IH self' rest parsed ltac:(lia) Hloop)
          as (arguments & remaining & Ha & Hr & Hsub & Hall & Hsuf).
        exists (token :: arguments), remaining.
        rewrite Ha, Hargs, Hr, Hrem, <- app_assoc.
        repeat split; [by apply sublist_skip | | by apply suffix_cons_r].
        apply Forall_cons. split; [by apply Ascii.eqb_neq | done].
      * destruct took.
        -- destruct rest as [|value rest'].
           { injection Hloop as <-. exists [], [].
             rewrite app_nil_r, Hargs, Hrem. repeat split; try done.
             - apply sublist_nil_l.
             - apply suffix_nil. }
           destruct (IH self' rest' parsed ltac:(simpl in Hlen; lia) Hloop)
             as (arguments & remaining & Ha & Hr & Hsub & Hall & Hsuf).
           exists arguments, remaining. rewrite Ha, Hargs, Hr, Hrem.
           repeat split; [by do 2 apply sublist_cons | done |
                          by do 2 apply suffix_cons_r].
        -- destruct (IH self' rest parsed ltac:(lia) Hloop)
             as (arguments & remaining & Ha & Hr & Hsub & Hall & Hsuf).
           exists arguments, remaining. rewrite Ha, Hargs, Hr, Hrem.
           repeat split; [by apply sublist_cons | done | by apply suffix_cons_r].
    + injection Hloop as <-.
      apply parse_body_Break in Hbody as (_ & _ & _ & _ & ->).
      exists [], rest. simpl. rewrite app_nil_r.
      repeat split; [apply sublist_nil_l | done | by apply suffix_cons_r].
Qed.

End Thrown.

(** X15.  [parse] has no defined behaviour exactly for an empty [argv];
    whatever it throws is an [ArgParserException]. *)
Theorem parse_throws_ArgParserException (self : ArgParser) (argv : list string)
    (accept : bool) :
  (parse self argv accept = Undefined <-> argv = [])
  /\
  (forall e, parse self argv accept = Throw e -> exists what, e = ArgParserException what).
Proof.
  destruct argv as [|executable_path tokens]; [by split |]. unfold parse.
  destruct (parse_loop_Throw accept (length tokens) (reset self executable_path) tokens
              (Nat.le_refl _)) as [Hdef Hthrow].
  split; [by split | exact Hthrow].
Qed.

Lemma parse_throws_ArgParserException_witness :
  exists what, Msg.MissingOptionValue "output" = ArgParserException what.
Proof.
  apply (proj2 (parse_throws_ArgParserException
                  (mkArgParser EmptyString demo_options ∅ [] [])
                  ["prog"; "--output"] true)).
  reflexivity.
Defined.



(** X17.  After a successful [parse] the arguments are tokens of [argv]
    after the executable path, in the order they have there, none of them
    beginning with [-]; the remaining arguments are the last tokens of
    [argv], as many as they are. *)
Theorem parse_arguments_from_argv (self : ArgParser) (executable_path : string)
    (tokens : list string) (accept : bool) (parsed : ArgParser) :
  parse self (executable_path :: tokens) accept = Return parsed ->
  sublist (m_arguments parsed) tokens /\
  Forall (fun token => char_at token 0 <> dash) (m_arguments parsed) /\
  getRemainingArguments parsed `suffix_of` tokens.
Proof.
  unfold parse. intros Hloop.
  destruct (parse_loop_arguments accept (length tokens) _ _ _ (Nat.le_refl _) Hloop)
    as (arguments & remaining & Ha & Hr & Hsub & Hall & Hsuf).
  simpl in Ha, Hr. rewrite app_nil_r in Hr. unfold getRemainingArguments.
  by rewrite Ha, Hr.
Qed.

Lemma parse_arguments_from_argv_witness :
  sublist ["a"; "b"] ["a"; "-o"; "x"; "b"; "--"; "-c"; "d"] /\
  Forall (fun token => char_at token 0 <> dash) ["a"; "b"] /\
  ["-c"; "d"] `suffix_of` ["a"; "-o"; "x"; "b"; "--"; "-c"; "d"].
Proof.
  apply (parse_arguments_from_argv (mkArgParser EmptyString demo_options ∅ [] [])
           "prog" ["a"; "-o"; "x"; "b"; "--"; "-c"; "d"] true
           (mkArgParser "prog" demo_options (<["output" := "x"]> ∅) ["a"; "b"]
              ["-c"; "d"])).
  vm_compute. reflexivity.
Defined.
